(** * Line reconstruction of the OCR service

    A shallow embedding of [OCRService.organizeTextByLines] and of the
    result shaping of [OCRService.detectText] (the OCR service module of
    the repository), with the properties stated about them.

    Conventions of the embedding.
    - Pixel coordinates are the integers the vision provider reports; a
      coordinate that is absent is [None].  The JavaScript expression
      [v || d] yields [d] when [v] is absent or zero: [orElse].
    - [Array.prototype.sort] is stable, and the comparators of the source
      ([aY - bY], [aX - bX]) order by an integer key; the sorted array is
      therefore the stable ascending arrangement, computed here by a stable
      insertion sort ([sort_by]).
    - Scores are rationals; they are only carried around. *)

From Stdlib Require Import ZArith QArith String Ascii Strings.Byte List Sorting.Sorted Lia.
From stdpp Require Import base option list sorting gmap pretty.

Local Open Scope Z_scope.

(** ** Data model *)

Module Vertex.
Record t := mk { x : option Z; y : option Z }.
End Vertex.

Module Poly.
(** [boundingPoly] of the provider, [boundingBox] of a word detail. *)
Record t := mk { vertices : option (list Vertex.t) }.
End Poly.

Module Detail.
(** An element of [textDetails]. *)
Record t := mk {
  text : string;
  confidence : option Q;
  boundingBox : option Poly.t
}.
End Detail.

Module Box.
Record t := mk { minX : Z; maxX : Z; minY : Z; maxY : Z }.
End Box.

Module Acc.
(** The object held by [currentLine] while the lines are built. *)
Record t := mk {
  lineNumber : nat;
  averageY : Z;
  words : list Detail.t;
  text : string;
  boundingBox : Box.t
}.
End Acc.

Module Pos.
Record t := mk { x : Z; y : Z }.
End Pos.

Module OutWord.
Record t := mk {
  text : string;
  confidence : option Q;
  position : Pos.t
}.
End OutWord.

Module OutLine.
Record t := mk {
  lineNumber : nat;
  text : string;
  wordCount : nat;
  words : list OutWord.t;
  boundingBox : Box.t
}.
End OutLine.

(** ** Reading coordinates *)

(** [v || d] on an optional integer. *)
Definition orElse (v : option Z) (d : Z) : Z :=
  match v with
  | Some n => if n =? 0 then d else n
  | None => d
  end.

(** [w.boundingBox?.vertices?.[i]] *)
Definition vertexAt (i : nat) (w : Detail.t) : option Vertex.t :=
  match Detail.boundingBox w with
  | Some bb =>
      match Poly.vertices bb with
      | Some vs => vs !! i
      | None => None
      end
  | None => None
  end.

(** [w.boundingBox?.vertices?.[i]?.x] and [...?.y] *)
Definition vertexX (i : nat) (w : Detail.t) : option Z :=
  match vertexAt i w with Some v => Vertex.x v | None => None end.

Definition vertexY (i : nat) (w : Detail.t) : option Z :=
  match vertexAt i w with Some v => Vertex.y v | None => None end.

(** [w.boundingBox?.vertices?.[0]?.y || 0] and the same for [x]. *)
Definition topLeftY (w : Detail.t) : Z := orElse (vertexY 0 w) 0.
Definition topLeftX (w : Detail.t) : Z := orElse (vertexX 0 w) 0.

(** ** Sorting *)

Section Sort.
Context {A : Type} (key : A -> Z).

(** [a] goes in front of the first element whose key is not smaller. *)
Fixpoint insert_by (a : A) (l : list A) : list A :=
  match l with
  | [] => [a]
  | b :: l' => if key a <=? key b then a :: l else b :: insert_by a l'
  end.

Definition sort_by (l : list A) : list A := foldr insert_by [] l.

End Sort.

(** Ascending order of the key. *)
Definition le_key {A : Type} (key : A -> Z) (a b : A) : Prop := key a <= key b.

(** ** The grouping loop *)

Definition lineThreshold : Z := 20.

(** The object literal of a new line: [lineNumber: n], anchored at the
    word's top-left corner. *)
Definition newLine (n : nat) (text : Detail.t) : Acc.t :=
  let textY := topLeftY text in
  let textX := topLeftX text in
  {| Acc.lineNumber := n;
     Acc.averageY := textY;
     Acc.words := [text];
     Acc.text := Detail.text text;
     Acc.boundingBox :=
       {| Box.minX := textX; Box.maxX := textX;
          Box.minY := textY; Box.maxY := textY |} |}.

(** The updates made to [currentLine] when a word joins it. *)
Definition addWord (currentLine : Acc.t) (text : Detail.t) : Acc.t :=
  let textY := topLeftY text in
  let textX := topLeftX text in
  let textMaxX := orElse (vertexX 1 text) textX in
  let textMaxY := orElse (vertexY 2 text) textY in
  let bb := Acc.boundingBox currentLine in
  {| Acc.lineNumber := Acc.lineNumber currentLine;
     Acc.averageY := Acc.averageY currentLine;
     Acc.words := Acc.words currentLine ++ [text];
     Acc.text := (Acc.text currentLine ++ " " ++ Detail.text text)%string;
     Acc.boundingBox :=
       {| Box.minX := Z.min (Box.minX bb) textX;
          Box.maxX := Z.max (Box.maxX bb) textMaxX;
          Box.minY := Z.min (Box.minY bb) textY;
          Box.maxY := Z.max (Box.maxY bb) textMaxY |} |}.

(** The state of the loop: the array [lines], and the variable
    [currentLine], which is either [null] or a reference to an element of
    [lines], kept as the index of that element. *)
Record loopState := mkLoop {
  lines : list Acc.t;
  currentLine : option nat
}.

Definition initLoop : loopState := {| lines := []; currentLine := None |}.

Definition deref (st : loopState) : option Acc.t :=
  match currentLine st with
  | Some i => lines st !! i
  | None => None
  end.

Definition pushLine (st : loopState) (text : Detail.t) : loopState :=
  {| lines := lines st ++ [newLine (length (lines st) + 1) text];
     currentLine := Some (length (lines st)) |}.

(** One iteration of [for (const text of sortedTexts)]. *)
Definition loopBody (st : loopState) (text : Detail.t) : loopState :=
  match currentLine st, deref st with
  | Some i, Some cur =>
      if lineThreshold <? Z.abs (topLeftY text - Acc.averageY cur)
      then pushLine st text
      else {| lines := <[i := addWord cur text]> (lines st);
              currentLine := Some i |}
  | _, _ => pushLine st text
  end.

Definition groupLoop (sortedTexts : list Detail.t) : loopState :=
  fold_left loopBody sortedTexts initLoop.

(** The loop over a state whose [currentLine] refers to the last element
    of [lines]: [closed] are the lines closed so far, [cur] the current one. *)
Fixpoint walk (closed : list Acc.t) (cur : Acc.t) (ws : list Detail.t)
  : list Acc.t :=
  match ws with
  | [] => closed ++ [cur]
  | w :: ws' =>
      if lineThreshold <? Z.abs (topLeftY w - Acc.averageY cur)
      then walk (closed ++ [cur]) (newLine (length closed + 2) w) ws'
      else walk closed (addWord cur w) ws'
  end.

(** The anchor and the words of a line. *)
Definition anchored (L : Acc.t) : Z * list Detail.t :=
  (Acc.averageY L, Acc.words L).

(** ** Ordering the words of a line and shaping the output *)

(** The body of [lines.forEach]: sort the words by their top-left x and
    rebuild the text. *)
Definition orderLine (line : Acc.t) : Acc.t :=
  let ws := sort_by topLeftX (Acc.words line) in
  {| Acc.lineNumber := Acc.lineNumber line;
     Acc.averageY := Acc.averageY line;
     Acc.words := ws;
     Acc.text := String.concat " " (map Detail.text ws);
     Acc.boundingBox := Acc.boundingBox line |}.

Definition outWord (w : Detail.t) : OutWord.t :=
  {| OutWord.text := Detail.text w;
     OutWord.confidence := Detail.confidence w;
     OutWord.position := {| Pos.x := topLeftX w; Pos.y := topLeftY w |} |}.

Definition outLine (line : Acc.t) : OutLine.t :=
  {| OutLine.lineNumber := Acc.lineNumber line;
     OutLine.text := Acc.text line;
     OutLine.wordCount := length (Acc.words line);
     OutLine.words := map outWord (Acc.words line);
     OutLine.boundingBox := Acc.boundingBox line |}.

(** The lines as they stand after the loop and the [forEach]. *)
Definition builtLines (textDetails : list Detail.t) : list Acc.t :=
  map orderLine (lines (groupLoop (sort_by topLeftY textDetails))).

(** [organizeTextByLines(textDetails)]; [None] is a [null] or [undefined]
    argument. *)
Definition organizeTextByLines (textDetails : option (list Detail.t))
  : list OutLine.t :=
  match textDetails with
  | None => []
  | Some [] => []
  | Some l => map outLine (builtLines l)
  end.

(** A word given by its text, its score, its top-left corner and the
    corners that follow it in the polygon. *)
Definition wordAt (s : string) (c : option Q) (px py : Z)
  (rest : list Vertex.t) : Detail.t :=
  {| Detail.text := s;
     Detail.confidence := c;
     Detail.boundingBox :=
       Some {| Poly.vertices :=
                 Some (Vertex.mk (Some px) (Some py) :: rest) |} |}.

(** A word given by its text and the corners of its polygon. *)
Definition word (s : string) (vs : list (Z * Z)) : Detail.t :=
  {| Detail.text := s;
     Detail.confidence := None;
     Detail.boundingBox :=
       Some {| Poly.vertices :=
                 Some (map (fun p => Vertex.mk (Some (fst p)) (Some (snd p))) vs) |} |}.

(** ** Result shaping: [detectText] *)

Module Annotation.
(** An element of [result.textAnnotations]. *)
Record t := mk {
  description : string;
  score : option Q;
  boundingPoly : option Poly.t
}.
End Annotation.

Module Failure.
(** The error object caught by [detectText]. *)
Record t := mk { code : option Z; message : string }.
End Failure.

(** What [await client.textDetection(imageInput)] does: it throws, or it
    yields a result whose [textAnnotations] may be absent. *)
Inductive providerOutcome :=
| Rejected (error : Failure.t)
| Resolved (textAnnotations : option (list Annotation.t)).

Module Env.
Record t := mk {
  GOOGLE_CLOUD_API_KEY : option string;
  GOOGLE_APPLICATION_CREDENTIALS : option string
}.
End Env.

Module Meta.
Record t := mk {
  totalWords : nat;
  totalLines : option nat;
  timestamp : string;
  mode : option string
}.
End Meta.

Module Result.
(** The object returned by [detectText]; a field the object literal does
    not have is [None]. *)
Record t := mk {
  success : bool;
  message : string;
  text : string;
  wordCount : option nat;
  lines : option (list OutLine.t);
  details : list Detail.t;
  metadata : option Meta.t;
  error : option Failure.t
}.
End Result.

(** Truthiness of an environment variable. *)
Definition isSet (v : option string) : bool :=
  match v with
  | Some s => negb (String.eqb s "")
  | None => false
  end.

(** [text.score || 0] *)
Definition scoreOrZero (v : option Q) : Q :=
  match v with
  | Some q => if Qeq_bool q 0 then 0%Q else q
  | None => 0%Q
  end.

(** The arrow function mapped over [detections.slice(1)]. *)
Definition toDetail (a : Annotation.t) : Detail.t :=
  {| Detail.text := Annotation.description a;
     Detail.confidence := Some (scoreOrZero (Annotation.score a));
     Detail.boundingBox := Annotation.boundingPoly a |}.

Definition mockWord (s : string) (c : Q) : Detail.t :=
  {| Detail.text := s; Detail.confidence := Some c;
     Detail.boundingBox := Some {| Poly.vertices := Some [] |} |}.

Definition mockResult (now : string) : Result.t :=
  {| Result.success := true;
     Result.message := "อ่านข้อความจากรูปภาพสำเร็จ (Mock Mode)";
     Result.text := "Mock OCR Result: This is a sample text detected from image. เนื่องจากยังไม่ได้ตั้งค่า Google Cloud Vision API";
     Result.wordCount := Some 20%nat;
     Result.lines := None;
     Result.details :=
       [mockWord "Mock" (95 # 100)%Q; mockWord "OCR" (98 # 100)%Q;
        mockWord "Result" (92 # 100)%Q];
     Result.metadata :=
       Some {| Meta.totalWords := 3; Meta.totalLines := None;
               Meta.timestamp := now; Meta.mode := Some "mock"%string |};
     Result.error := None |}.

Definition noTextResult : Result.t :=
  {| Result.success := false;
     Result.message := "ไม่พบข้อความในรูปภาพ";
     Result.text := "";
     Result.wordCount := None;
     Result.lines := None;
     Result.details := [];
     Result.metadata := None;
     Result.error := None |}.

Definition errorResult (e : Failure.t) : Result.t :=
  {| Result.success := false;
     Result.message := ("เกิดข้อผิดพลาด: " ++ Failure.message e)%string;
     Result.text := "";
     Result.wordCount := None;
     Result.lines := None;
     Result.details := [];
     Result.metadata := None;
     Result.error := Some e |}.

Section DetectText.
(** Platform functions the source calls: [String.prototype.trim], the
    length of [s.split(/\s+/)], and the clock read by
    [new Date().toISOString()]. *)
Variable trim : string -> string.
Variable splitCount : string -> nat.
Variable now : string.

Definition successResult (detections : list Annotation.t) : Result.t :=
  let fullText :=
    match detections with
    | d :: _ => Annotation.description d
    | [] => ""%string
    end in
  let textDetails := map toDetail (drop 1 detections) in
  let organizedByLines := organizeTextByLines (Some textDetails) in
  {| Result.success := true;
     Result.message := "อ่านข้อความจากรูปภาพสำเร็จ";
     Result.text := trim fullText;
     Result.wordCount := Some (splitCount (trim fullText));
     Result.lines := Some organizedByLines;
     Result.details := textDetails;
     Result.metadata :=
       Some {| Meta.totalWords := length textDetails;
               Meta.totalLines := Some (length organizedByLines);
               Meta.timestamp := now; Meta.mode := None |};
     Result.error := None |}.

(** [detectText]: the environment decides the mock mode; otherwise the
    outcome of the provider call decides the result. *)
Definition detectText (env : Env.t) (outcome : providerOutcome) : Result.t :=
  if negb (isSet (Env.GOOGLE_CLOUD_API_KEY env))
     && negb (isSet (Env.GOOGLE_APPLICATION_CREDENTIALS env))
  then mockResult now
  else
    match outcome with
    | Rejected e => errorResult e
    | Resolved None => noTextResult
    | Resolved (Some []) => noTextResult
    | Resolved (Some detections) => successResult detections
    end.

End DetectText.

(** ** The grouping rule in the words of the specification

    Walk the sorted words with a current line and its anchor: a word whose
    top-left y is within the threshold of the anchor joins the current
    line; any other word closes the line and opens a new one anchored at
    its own y.  The result lists each line as its anchor and its words in
    the order they were taken. *)
Fixpoint specWalk (anchor : Z) (line : list Detail.t) (ws : list Detail.t)
  : list (Z * list Detail.t) :=
  match ws with
  | [] => [(anchor, line)]
  | w :: ws' =>
      if Z.abs (topLeftY w - anchor) <=? 20
      then specWalk anchor (line ++ [w]) ws'
      else (anchor, line) :: specWalk (topLeftY w) [w] ws'
  end.

Definition specLines (sorted : list Detail.t) : list (Z * list Detail.t) :=
  match sorted with
  | [] => []
  | w :: ws => specWalk (topLeftY w) [w] ws
  end.

(** The same rule as a property of a finished grouping: every line opens
    with the word that gives its anchor, the words that follow in the line
    are within the threshold of that anchor, and the word that opens the
    next line is not. *)
Definition within (anchor : Z) (w : Detail.t) : Prop :=
  Z.abs (topLeftY w - anchor) <= 20.

Inductive Grouped : list (Z * list Detail.t) -> Prop :=
| Grouped_nil : Grouped []
| Grouped_last w rest :
    Forall (within (topLeftY w)) rest ->
    Grouped [(topLeftY w, w :: rest)]
| Grouped_next w rest a' w' rest' gs :
    Forall (within (topLeftY w)) rest ->
    ~ within (topLeftY w) w' ->
    Grouped ((a', w' :: rest') :: gs) ->
    Grouped ((topLeftY w, w :: rest) :: (a', w' :: rest') :: gs).

(** What an output line says apart from its bounding box. *)
Definition contents (L : OutLine.t)
  : nat * string * nat * list OutWord.t :=
  (OutLine.lineNumber L, OutLine.text L, OutLine.wordCount L, OutLine.words L).

(** Left to right, and top to bottom among words of equal x. *)
Definition lexXY (a b : Detail.t) : Prop :=
  topLeftX a < topLeftX b
  \/ (topLeftX a = topLeftX b /\ topLeftY a <= topLeftY b).

(** No two different words of the list have the same top-left corner. *)
Definition distinctCorners (l : list Detail.t) : Prop :=
  forall a b, a ∈ l -> b ∈ l ->
    topLeftX a = topLeftX b -> topLeftY a = topLeftY b -> a = b.

(** Two lines with the same anchor and the same words, each in ascending
    order of y. *)
Definition sameLine (g1 g2 : Z * list Detail.t) : Prop :=
  fst g1 = fst g2
  /\ snd g1 ≡ₚ snd g2
  /\ StronglySorted (le_key topLeftY) (snd g1)
  /\ StronglySorted (le_key topLeftY) (snd g2).

(** The contents of the output line made from line number [n] and the
    ordered words [ws]. *)
Definition contentsOf (n : nat) (ws : list Detail.t)
  : nat * string * nat * list OutWord.t :=
  (n, String.concat " " (map Detail.text ws), length ws, map outWord ws).

(** ** Bounding boxes *)

(** The box that is the top-left corner of a word alone. *)
Definition corner (w : Detail.t) : Box.t :=
  {| Box.minX := topLeftX w; Box.maxX := topLeftX w;
     Box.minY := topLeftY w; Box.maxY := topLeftY w |}.

(** The extent of a word: from its top-left corner to the x of its second
    corner and the y of its third, where these are present. *)
Definition extent (w : Detail.t) : Box.t :=
  {| Box.minX := topLeftX w;
     Box.maxX := orElse (vertexX 1 w) (topLeftX w);
     Box.minY := topLeftY w;
     Box.maxY := orElse (vertexY 2 w) (topLeftY w) |}.

Definition boxJoin (b e : Box.t) : Box.t :=
  {| Box.minX := Z.min (Box.minX b) (Box.minX e);
     Box.maxX := Z.max (Box.maxX b) (Box.maxX e);
     Box.minY := Z.min (Box.minY b) (Box.minY e);
     Box.maxY := Z.max (Box.maxY b) (Box.maxY e) |}.

(** The box the loop leaves on a line whose words, in the order they were
    taken, are [ws]. *)
Definition lineBox (ws : list Detail.t) : option Box.t :=
  match ws with
  | [] => None
  | w :: rest => Some (fold_left boxJoin (map extent rest) (corner w))
  end.

(** The box in the words of the specification: the coordinate-wise minimum
    and maximum over the extents of all the member words. *)
Definition coveringBox (ws : list Detail.t) : option Box.t :=
  match ws with
  | [] => None
  | w :: rest => Some (fold_left boxJoin (map extent rest) (extent w))
  end.

(** ** Well-formed output *)

Definition wellFormed (L : OutLine.t) : Prop :=
  OutLine.wordCount L = length (OutLine.words L)
  /\ OutLine.words L <> []
  /\ OutLine.text L = String.concat " " (map OutWord.text (OutLine.words L)).


(** ** The same functions over a store of arrays

    In the source the arrays of word details are objects: [textDetails] is
    passed by reference, [slice] allocates a copy, [sort] and [push] update
    an array in place.  The model below keeps these arrays in a store and
    runs the same statements against it, so that what the call does to the
    caller's array can be stated. *)

Module Heap.

(** The arrays of word details, by reference. *)
Abbreviation store := (gmap nat (list Detail.t)).

(** A computation on the store; [None] is the use of a reference that does
    not exist. *)
Definition M (A : Type) : Type := store -> option (A * store).

Definition ret {A} (a : A) : M A := fun h => Some (a, h).

Definition bind {A B} (m : M A) (k : A -> M B) : M B :=
  fun h =>
    match m h with
    | Some (a, h') => k a h'
    | None => None
    end.

Notation "'do' x <- m ; k" := (bind m (fun x => k))
  (at level 10, x name, m at level 100, k at level 200).
Notation "m ;; k" := (bind m (fun _ => k))
  (at level 100, k at level 200, right associativity).

(** A new array. *)
Definition alloc (v : list Detail.t) : M nat :=
  fun h => let r := fresh (dom h) in Some (r, <[r := v]> h).

Definition read (r : nat) : M (list Detail.t) :=
  fun h =>
    match h !! r with
    | Some v => Some (v, h)
    | None => None
    end.

Definition write (r : nat) (v : list Detail.t) : M unit :=
  fun h =>
    match h !! r with
    | Some _ => Some (tt, <[r := v]> h)
    | None => None
    end.

(** [a.slice()]: a new array with the elements of [a]. *)
Definition slice (r : nat) : M nat := do v <- read r; alloc v.

(** [a.sort(cmp)]: the array itself is rearranged. *)
Definition sort (key : Detail.t -> Z) (r : nat) : M unit :=
  do v <- read r; write r (sort_by key v).

(** [a.push(x)] *)
Definition push (r : nat) (x : Detail.t) : M unit :=
  do v <- read r; write r (v ++ [x]).

Fixpoint foldM {A B} (f : A -> B -> M A) (l : list B) (a : A) : M A :=
  match l with
  | [] => ret a
  | b :: l' => do a' <- f a b; foldM f l' a'
  end.

Fixpoint mapM {A B} (f : A -> M B) (l : list A) : M (list B) :=
  match l with
  | [] => ret []
  | a :: l' => do b <- f a; do bs <- mapM f l'; ret (b :: bs)
  end.

(** A line under construction; [words] is a reference to its array. *)
Record line := mkLine {
  lineNumber : nat;
  averageY : Z;
  words : nat;
  text : string;
  boundingBox : Box.t
}.

Definition newLine (n : nat) (text : Detail.t) : M line :=
  let textY := topLeftY text in
  let textX := topLeftX text in
  do ws <- alloc [text];
  ret {| lineNumber := n;
         averageY := textY;
         words := ws;
         text := Detail.text text;
         boundingBox :=
           {| Box.minX := textX; Box.maxX := textX;
              Box.minY := textY; Box.maxY := textY |} |}.

Definition addWord (currentLine : line) (text : Detail.t) : M line :=
  let textY := topLeftY text in
  let textX := topLeftX text in
  push (words currentLine) text;;
  let textMaxX := orElse (vertexX 1 text) textX in
  let textMaxY := orElse (vertexY 2 text) textY in
  let bb := boundingBox currentLine in
  ret {| lineNumber := lineNumber currentLine;
         averageY := averageY currentLine;
         words := words currentLine;
         text := (Heap.text currentLine ++ " " ++ Detail.text text)%string;
         boundingBox :=
           {| Box.minX := Z.min (Box.minX bb) textX;
              Box.maxX := Z.max (Box.maxX bb) textMaxX;
              Box.minY := Z.min (Box.minY bb) textY;
              Box.maxY := Z.max (Box.maxY bb) textMaxY |} |}.

Record loopState := mkLoop {
  lines : list line;
  currentLine : option nat
}.

Definition initLoop : loopState := {| lines := []; currentLine := None |}.

Definition deref (st : loopState) : option line :=
  match currentLine st with
  | Some i => lines st !! i
  | None => None
  end.

Definition pushLine (st : loopState) (text : Detail.t) : M loopState :=
  do new <- newLine (length (lines st) + 1) text;
  ret {| lines := lines st ++ [new];
         currentLine := Some (length (lines st)) |}.

Definition loopBody (st : loopState) (text : Detail.t) : M loopState :=
  match currentLine st, deref st with
  | Some i, Some cur =>
      if lineThreshold <? Z.abs (topLeftY text - averageY cur)
      then pushLine st text
      else
        do cur' <- addWord cur text;
        ret {| lines := <[i := cur']> (lines st); currentLine := Some i |}
  | _, _ => pushLine st text
  end.

Definition orderLine (l : line) : M line :=
  sort topLeftX (words l);;
  do ws <- read (words l);
  ret {| lineNumber := lineNumber l;
         averageY := averageY l;
         words := words l;
         text := String.concat " " (map Detail.text ws);
         boundingBox := boundingBox l |}.

Definition outLine (l : line) : M OutLine.t :=
  do ws <- read (words l);
  ret {| OutLine.lineNumber := lineNumber l;
         OutLine.text := text l;
         OutLine.wordCount := length ws;
         OutLine.words := map outWord ws;
         OutLine.boundingBox := boundingBox l |}.

(** [organizeTextByLines(textDetails)], the argument being a reference to
    the caller's array, or [null]. *)
Definition organizeTextByLines (textDetails : option nat)
  : M (list OutLine.t) :=
  match textDetails with
  | None => ret []
  | Some a =>
      do given <- read a;
      match given with
      | [] => ret []
      | _ =>
          do sortedTexts <- slice a;
          sort topLeftY sortedTexts;;
          do ws <- read sortedTexts;
          do st <- foldM loopBody ws initLoop;
          do ordered <- mapM orderLine (lines st);
          mapM outLine ordered
      end
  end.

Section DetectText.
Variable trim : string -> string.
Variable splitCount : string -> nat.
Variable now : string.

(** The success branch of [detectText]: [details] is the array
    [textDetails] itself, read here as it stands when the result is
    returned. *)
Definition successResult (detections : list Annotation.t) : M Result.t :=
  let fullText :=
    match detections with
    | d :: _ => Annotation.description d
    | [] => ""%string
    end in
  do textDetails <- alloc (map toDetail (drop 1 detections));
  do organizedByLines <- organizeTextByLines (Some textDetails);
  do details <- read textDetails;
  ret {| Result.success := true;
         Result.message := "อ่านข้อความจากรูปภาพสำเร็จ";
         Result.text := trim fullText;
         Result.wordCount := Some (splitCount (trim fullText));
         Result.lines := Some organizedByLines;
         Result.details := details;
         Result.metadata :=
           Some {| Meta.totalWords := length details;
                   Meta.totalLines := Some (length organizedByLines);
                   Meta.timestamp := now; Meta.mode := None |};
         Result.error := None |}.

Definition detectText (env : Env.t) (outcome : providerOutcome) : M Result.t :=
  if negb (isSet (Env.GOOGLE_CLOUD_API_KEY env))
     && negb (isSet (Env.GOOGLE_APPLICATION_CREDENTIALS env))
  then ret (mockResult now)
  else
    match outcome with
    | Rejected e => ret (errorResult e)
    | Resolved None => ret noTextResult
    | Resolved (Some []) => ret noTextResult
    | Resolved (Some detections) => successResult detections
    end.

End DetectText.

End Heap.

(** ** The store model against the functions on lists *)

(** A line of the store model stands for the line [L]: the same fields,
    and its array holds the words of [L]. *)
Definition repr (h : Heap.store) (LH : Heap.line) (L : Acc.t) : Prop :=
  Heap.lineNumber LH = Acc.lineNumber L
  /\ Heap.averageY LH = Acc.averageY L
  /\ Heap.text LH = Acc.text L
  /\ Heap.boundingBox LH = Acc.boundingBox L
  /\ h !! Heap.words LH = Some (Acc.words L).

(** The lines of the store model stand for [ls]; their arrays are distinct
    and are none of the arrays of the store [h0] the call started from, all
    of which are still in [h] as they were. *)
Definition Lines (h0 h : Heap.store) (lsH : list Heap.line)
  (ls : list Acc.t) : Prop :=
  Forall2 (repr h) lsH ls
  /\ NoDup (map Heap.words lsH)
  /\ Forall (fun LH => h0 !! Heap.words LH = None) lsH
  /\ h0 ⊆ h.

(** ** The other entry points of the service *)

(** What [detectText] is given: a path, or the bytes of an image. *)
Inductive imageInput :=
| ImagePath (path : string)
| ImageBuffer (bytes : list byte).

(** [client], as the module leaves it when it is loaded: defined when one
    of the two credentials is set in the environment. *)
Definition clientConfigured (env : Env.t) : bool :=
  if isSet (Env.GOOGLE_CLOUD_API_KEY env) then true
  else if isSet (Env.GOOGLE_APPLICATION_CREDENTIALS env) then true
  else false.


(** *** The data-URL prefix

    [base64String.replace(/^data:image\/[a-z]+;base64,/, '')]: the text
    [data:image/], one or more lower-case letters and [;base64,] are removed
    from the front of the string, when the string starts so. *)

Fixpoint stripPrefix (p s : string) : option string :=
  match p, s with
  | EmptyString, _ => Some s
  | String a p', String b s' =>
      if Ascii.eqb a b then stripPrefix p' s' else None
  | String _ _, EmptyString => None
  end.

(** The class [[a-z]]. *)
Definition isLower (c : ascii) : bool :=
  (97 <=? nat_of_ascii c)%nat && (nat_of_ascii c <=? 122)%nat.

(** The longest run of lower-case letters at the front, and what follows. *)
Fixpoint spanLower (s : string) : string * string :=
  match s with
  | EmptyString => (EmptyString, EmptyString)
  | String c s' =>
      if isLower c
      then let (ty, rest) := spanLower s' in (String c ty, rest)
      else (EmptyString, s)
  end.

Definition stripDataUrl (s : string) : string :=
  match stripPrefix "data:image/" s with
  | Some r =>
      let (ty, rest) := spanLower r in
      match ty, stripPrefix ";base64," rest with
      | String _ _, Some payload => payload
      | _, _ => s
      end
  | None => s
  end.

(** The strings the pattern matches at the front of [s], leaving
    [payload]. *)
Fixpoint allLower (s : string) : bool :=
  match s with
  | EmptyString => true
  | String c s' => isLower c && allLower s'
  end.

Definition dataUrlOf (s payload : string) : Prop :=
  exists ty, ty <> EmptyString /\ allLower ty = true
             /\ s = ("data:image/" ++ ty ++ ";base64," ++ payload)%string.

(** *** Downloads *)

(** What [await response.arrayBuffer()] does. *)
Inductive bodyOutcome :=
| BodyRejected (error : Failure.t)
| BodyResolved (bytes : list byte).

(** What [await fetch(imageUrl)] does: it throws, or it yields a response
    with its [ok] flag, its [status] and its body. *)
Inductive fetchOutcome :=
| FetchRejected (error : Failure.t)
| FetchResolved (ok : bool) (status : nat) (arrayBuffer : bodyOutcome).

(** The result returned from the [catch] of [detectTextFromUrl]. *)
Definition downloadError (errorMessage : string) : Result.t :=
  {| Result.success := false;
     Result.message := ("ไม่สามารถดาวน์โหลดรูปภาพได้: " ++ errorMessage)%string;
     Result.text := "";
     Result.wordCount := None;
     Result.lines := None;
     Result.details := [];
     Result.metadata := None;
     Result.error := None |}.

(** The bytes the download yields, or the message of the error thrown. *)
Definition download (o : fetchOutcome) : string + list byte :=
  match o with
  | FetchRejected e => inl (Failure.message e)
  | FetchResolved ok status body =>
      if negb ok
      then inl ("Failed to fetch image: " ++ pretty status)%string
      else
        match body with
        | BodyRejected e => inl (Failure.message e)
        | BodyResolved bytes => inr bytes
        end
  end.

(** *** Documents *)

Module Page.
(** A page of [fullTextAnnotation.pages]; [B] is the type of its blocks,
    of which the source reads only the number. *)
Record t {B : Type} := mk {
  width : Z;
  height : Z;
  blocks : list B;
  confidence : option Q
}.
Arguments t : clear implicits.
Arguments mk {B} width height blocks confidence.
End Page.

Module FullText.
Record t {B : Type} := mk {
  text : string;
  pages : list (Page.t B)
}.
Arguments t : clear implicits.
Arguments mk {B} text pages.
End FullText.

(** What [await client.documentTextDetection(imageInput)] does. *)
Inductive documentOutcome {B : Type} :=
| DocRejected (error : Failure.t)
| DocResolved (fullTextAnnotation : option (FullText.t B)).
Arguments documentOutcome : clear implicits.

Module PageInfo.
(** An element of the [pages] of the result. *)
Record t := mk {
  width : Z;
  height : Z;
  blocks : nat;
  confidence : Q
}.
End PageInfo.

Module DocMeta.
Record t := mk { totalPages : nat; timestamp : string }.
End DocMeta.

Module DocResult.
(** The object returned by [detectDocumentText]. *)
Record t := mk {
  success : bool;
  message : string;
  text : string;
  pages : list PageInfo.t;
  metadata : option DocMeta.t;
  error : option Failure.t
}.
End DocResult.

(** The arrow function mapped over [fullTextAnnotation.pages]. *)
Definition pageInfo {B : Type} (page : Page.t B) : PageInfo.t :=
  {| PageInfo.width := Page.width page;
     PageInfo.height := Page.height page;
     PageInfo.blocks := length (Page.blocks page);
     PageInfo.confidence := scoreOrZero (Page.confidence page) |}.

Definition noDocumentResult : DocResult.t :=
  {| DocResult.success := false;
     DocResult.message := "ไม่พบข้อความในเอกสาร";
     DocResult.text := "";
     DocResult.pages := [];
     DocResult.metadata := None;
     DocResult.error := None |}.

Definition documentError (e : Failure.t) : DocResult.t :=
  {| DocResult.success := false;
     DocResult.message :=
       ("เกิดข้อผิดพลาดในการอ่านเอกสาร: " ++ Failure.message e)%string;
     DocResult.text := "";
     DocResult.pages := [];
     DocResult.metadata := None;
     DocResult.error := Some e |}.

Section Service.
(** The platform, as before, with the provider as a function of the image
    it is given, the decoder of [Buffer.from(s, 'base64')], [fetch], and the
    message of the [TypeError] the engine throws when a method is called on
    [undefined] (such an error has no [code]). *)
Variable trim : string -> string.
Variable splitCount : string -> nat.
Variable now : string.
Variable provider : imageInput -> providerOutcome.
Variable decodeBase64 : string -> list byte.
Variable fetch : string -> fetchOutcome.
Variable undefinedMessage : string.

(** [detectText(imageInput)] *)
Definition detectTextOf (env : Env.t) (imageInput : imageInput) : Result.t :=
  detectText trim splitCount now env (provider imageInput).

(** [detectTextFromUrl(imageUrl)] *)
Definition detectTextFromUrl (env : Env.t) (imageUrl : string) : Result.t :=
  match download (fetch imageUrl) with
  | inl errorMessage => downloadError errorMessage
  | inr bytes => detectTextOf env (ImageBuffer bytes)
  end.


(** [detectDocumentText(imageInput)], the provider's answer being
    [outcome]; without a client the call on [undefined] throws. *)
Definition detectDocumentText {B : Type} (env : Env.t)
  (outcome : documentOutcome B) : DocResult.t :=
  if clientConfigured env
  then
    match outcome with
    | DocRejected e => documentError e
    | DocResolved None => noDocumentResult
    | DocResolved (Some fullTextAnnotation) =>
        let text := FullText.text fullTextAnnotation in
        let pages := map pageInfo (FullText.pages fullTextAnnotation) in
        {| DocResult.success := true;
           DocResult.message := "อ่านเอกสารสำเร็จ";
           DocResult.text := trim text;
           DocResult.pages := pages;
           DocResult.metadata :=
             Some {| DocMeta.totalPages := length pages;
                     DocMeta.timestamp := now |};
           DocResult.error := None |}
    end
  else documentError
         {| Failure.code := None; Failure.message := undefinedMessage |}.

End Service.

(** ** Arguments that are not lists of annotations

    [organizeTextByLines] is an untyped function: its argument need not be
    an array, and the elements of an array need not be objects.  The model
    below takes the argument as a value, [null], [undefined], a primitive
    or an array whose elements are objects, [null] or [undefined], and says
    how the call ends.  (An argument that is an object other than an array
    behaves as its own [length], [slice] and [sort] make it, and is not
    modelled; nor are elements that are primitives.) *)

Module Js.

Inductive element :=
| ENull
| EUndefined
| EObject (w : Detail.t).

Inductive argument :=
| ANull
| AUndefined
| ABoolean (b : bool)
| ANumber (n : Z)
| AString (s : string)
| AArray (elems : list element).

(** How a call ends: it returns, or it throws a [TypeError]. *)
Inductive completion (A : Type) :=
| Returns (a : A)
| ThrowsTypeError.
Arguments Returns {A} a.
Arguments ThrowsTypeError {A}.

Definition isUndefined (e : element) : bool :=
  match e with
  | EUndefined => true
  | _ => false
  end.

Definition objectOf (e : element) : option Detail.t :=
  match e with
  | EObject w => Some w
  | _ => None
  end.

(** The objects of a list all of whose elements are objects. *)
Fixpoint objectsOf (elems : list element) : option (list Detail.t) :=
  match elems with
  | [] => Some []
  | e :: rest =>
      match objectOf e, objectsOf rest with
      | Some w, Some ws => Some (w :: ws)
      | _, _ => None
      end
  end.

(** [textDetails.slice().sort(cmp)]: [sort] puts the elements that are
    [undefined] last without calling the comparator, and arranges the
    others by calling it; fewer than two elements give it nothing to
    compare.  The comparator reads [a.boundingBox] and [b.boundingBox],
    which throws for a [null]. *)
Definition sortElements (elems : list element) : completion (list element) :=
  let present := List.filter (fun e => negb (isUndefined e)) elems in
  let absent := List.filter isUndefined elems in
  match present with
  | [] | [_] => Returns (present ++ absent)
  | _ =>
      match objectsOf present with
      | Some ws => Returns (map EObject (sort_by topLeftY ws) ++ absent)
      | None => ThrowsTypeError
      end
  end.

(** One iteration of the loop: [text.boundingBox] throws for an element
    that is [null] or [undefined]. *)
Definition iteration (st : loopState) (text : element)
  : completion loopState :=
  match text with
  | EObject w => Returns (loopBody st w)
  | _ => ThrowsTypeError
  end.

Fixpoint loop (sortedTexts : list element) (st : loopState)
  : completion loopState :=
  match sortedTexts with
  | [] => Returns st
  | text :: rest =>
      match iteration st text with
      | Returns st' => loop rest st'
      | ThrowsTypeError => ThrowsTypeError
      end
  end.

(** [organizeTextByLines(textDetails)] for any such argument.  A primitive
    that is not falsy has no [length] equal to 0, and either no [slice] or a
    [slice] whose result has no [sort]: the call at [slice().sort] throws.
    The words of the lines a finished loop leaves are objects, so that the
    rest of the function is as before. *)
Definition organizeTextByLines (textDetails : argument)
  : completion (list OutLine.t) :=
  match textDetails with
  | ANull | AUndefined => Returns []
  | ABoolean b => if b then ThrowsTypeError else Returns []
  | ANumber n => if n =? 0 then Returns [] else ThrowsTypeError
  | AString s =>
      match s with
      | EmptyString => Returns []
      | String _ _ => ThrowsTypeError
      end
  | AArray [] => Returns []
  | AArray elems =>
      match sortElements elems with
      | Returns sortedTexts =>
          match loop sortedTexts initLoop with
          | Returns st => Returns (map outLine (map orderLine (lines st)))
          | ThrowsTypeError => ThrowsTypeError
          end
      | ThrowsTypeError => ThrowsTypeError
      end
  end.

End Js.

(** * Properties *)

(** ** The sort *)

Section SortFacts.
Context {A : Type} (key : A -> Z).

Lemma insert_by_perm a l : insert_by key a l ≡ₚ a :: l.
Proof.
  induction l as [|b l IH]; simpl; [done|].
  destruct (key a <=? key b); [done|].
  rewrite IH. apply Permutation_swap.
Qed.

Lemma sort_by_perm l : sort_by key l ≡ₚ l.
Proof.
  induction l as [|a l IH]; simpl; [done|].
  by rewrite insert_by_perm, IH.
Qed.

Lemma sort_by_length l : length (sort_by key l) = length l.
Proof. by rewrite sort_by_perm. Qed.

Lemma insert_by_sorted a l :
  StronglySorted (le_key key) l -> StronglySorted (le_key key) (insert_by key a l).
Proof.
  induction 1 as [|b l Hl IH Hb]; simpl.
  - repeat constructor.
  - destruct (Z.leb_spec (key a) (key b)) as [Hab|Hab].
    + constructor; [by constructor|].
      constructor; [done|].
      eapply Forall_impl; [exact Hb|]. unfold le_key. intros; simpl in *; lia.
    + constructor; [done|].
      rewrite insert_by_perm. constructor; [unfold le_key; lia | done].
Qed.

Lemma sort_by_sorted l : StronglySorted (le_key key) (sort_by key l).
Proof.
  induction l as [|a l IH]; simpl; [constructor|].
  by apply insert_by_sorted.
Qed.

(** Stability: the elements of equal key keep their relative order. *)
Lemma insert_by_stable k a l :
  filter (fun b => key b = k) (insert_by key a l)
  = filter (fun b => key b = k) (a :: l).
Proof.
  induction l as [|b l IH]; simpl; [done|].
  destruct (Z.leb_spec (key a) (key b)) as [Hab|Hab]; [done|].
  rewrite (filter_cons _ b), IH, !filter_cons.
  repeat case_decide; try done; lia.
Qed.

Lemma sort_by_stable k l :
  filter (fun b => key b = k) (sort_by key l) = filter (fun b => key b = k) l.
Proof.
  induction l as [|a l IH]; simpl; [done|].
  by rewrite insert_by_stable, !filter_cons, IH.
Qed.

Lemma insert_by_least a l :
  Forall (le_key key a) l -> insert_by key a l = a :: l.
Proof.
  destruct 1 as [|b l Hb _]; simpl; [done|].
  unfold le_key in Hb. destruct (Z.leb_spec (key a) (key b)); [done | lia].
Qed.

(** A list that is already in ascending order is left as it is. *)
Lemma sort_by_sorted_id l : StronglySorted (le_key key) l -> sort_by key l = l.
Proof.
  induction 1 as [|a l Hl IH Ha]; simpl; [done|].
  rewrite IH. by apply insert_by_least.
Qed.

(** Sortedness and stability determine the result: whatever stable sorting
    procedure the engine runs, it returns [sort_by key l]. *)
Lemma stable_sorted_unique l1 l2 :
  StronglySorted (le_key key) l1 -> StronglySorted (le_key key) l2 ->
  (forall k, filter (fun b => key b = k) l1 = filter (fun b => key b = k) l2) ->
  l1 = l2.
Proof.
  intros H1. revert l2.
  induction H1 as [|a l1 Hl1 IH Ha]; intros l2 H2 Hf.
  - destruct l2 as [|b l2]; [done|].
    specialize (Hf (key b)). rewrite filter_cons_True in Hf by done. done.
  - destruct H2 as [|b l2 Hl2 Hb].
    { specialize (Hf (key a)). rewrite filter_cons_True in Hf by done. done. }
    assert (key a = key b) as Hk.
    { assert (b ∈ a :: l1) as Hin1.
      { eapply (list_elem_of_filter (fun c => key c = key b)).
        rewrite Hf, filter_cons_True by done. left. }
      assert (a ∈ b :: l2) as Hin2.
      { eapply (list_elem_of_filter (fun c => key c = key a)).
        rewrite <- Hf, filter_cons_True by done. left. }
      apply elem_of_cons in Hin1 as [->|Hin1]; [done|].
      apply elem_of_cons in Hin2 as [->|Hin2]; [done|].
      rewrite Forall_forall in Ha, Hb.
      apply Ha in Hin1. apply Hb in Hin2. unfold le_key in *. lia. }
    assert (a = b) as ->.
    { specialize (Hf (key a)).
      rewrite filter_cons_True in Hf by done.
      rewrite filter_cons_True in Hf by done. congruence. }
    f_equal. apply IH; [done|]. intros k. specialize (Hf k).
    rewrite !filter_cons in Hf. case_decide; congruence.
Qed.

Lemma sort_by_unique l l' :
  StronglySorted (le_key key) l' ->
  (forall k, filter (fun b => key b = k) l' = filter (fun b => key b = k) l) ->
  l' = sort_by key l.
Proof.
  intros Hs Hf. apply stable_sorted_unique; [done | apply sort_by_sorted |].
  intros k. by rewrite sort_by_stable.
Qed.

End SortFacts.

(** ** The loop *)

Lemma loopBody_last closed cur w :
  loopBody {| lines := closed ++ [cur]; currentLine := Some (length closed) |} w
  = if lineThreshold <? Z.abs (topLeftY w - Acc.averageY cur)
    then {| lines := (closed ++ [cur]) ++ [newLine (length closed + 2) w];
            currentLine := Some (length (closed ++ [cur])) |}
    else {| lines := closed ++ [addWord cur w];
            currentLine := Some (length closed) |}.
Proof.
  unfold loopBody, deref, pushLine; simpl.
  rewrite list_lookup_middle by done.
  destruct (lineThreshold <? _).
  - rewrite length_app; simpl.
    by replace (length closed + 1 + 1)%nat with (length closed + 2)%nat by lia.
  - f_equal. rewrite insert_app_r_alt by lia.
    by replace (length closed - length closed)%nat with 0%nat by lia.
Qed.

Lemma fold_loopBody closed cur ws :
  lines (fold_left loopBody ws
           {| lines := closed ++ [cur]; currentLine := Some (length closed) |})
  = walk closed cur ws.
Proof.
  revert closed cur. induction ws as [|w ws IH]; intros closed cur; simpl; [done|].
  rewrite loopBody_last.
  destruct (lineThreshold <? _); apply IH.
Qed.

(** [currentLine] is [null] only before the first word; from then on it
    refers to the line pushed last. *)
Lemma groupLoop_cons w ws :
  lines (groupLoop (w :: ws)) = walk [] (newLine 1 w) ws.
Proof. unfold groupLoop; simpl. apply (fold_loopBody [] (newLine 1 w) ws). Qed.

Lemma fold_loopBody_current closed cur ws :
  let st := fold_left loopBody ws
              {| lines := closed ++ [cur]; currentLine := Some (length closed) |} in
  currentLine st = Some (pred (length (lines st))).
Proof.
  revert closed cur. induction ws as [|v ws IH]; intros closed cur; simpl.
  - rewrite length_app; simpl. f_equal; lia.
  - rewrite loopBody_last. destruct (lineThreshold <? _); apply IH.
Qed.

Lemma groupLoop_current ws :
  currentLine (groupLoop ws)
  = match ws with
    | [] => None
    | _ => Some (pred (length (lines (groupLoop ws))))
    end.
Proof.
  destruct ws as [|w ws]; [done|].
  apply (fold_loopBody_current [] (newLine 1 w) ws).
Qed.

(** The anchors and the words of the lines are those of the specification's
    walk. *)
Lemma walk_spec closed cur ws :
  map anchored (walk closed cur ws)
  = map anchored closed ++ specWalk (Acc.averageY cur) (Acc.words cur) ws.
Proof.
  revert closed cur. induction ws as [|w ws IH]; intros closed cur; simpl.
  - by rewrite map_app.
  - unfold lineThreshold.
    destruct (Z.ltb_spec 20 (Z.abs (topLeftY w - Acc.averageY cur)));
      destruct (Z.leb_spec (Z.abs (topLeftY w - Acc.averageY cur)) 20);
      try lia.
    + rewrite IH, map_app; simpl. by rewrite <- app_assoc.
    + by rewrite IH.
Qed.

Lemma groupLoop_spec ws :
  map anchored (lines (groupLoop ws)) = specLines ws.
Proof.
  destruct ws as [|w ws]; [done|].
  rewrite groupLoop_cons, walk_spec. done.
Qed.

(** Line numbers count the lines in the order they are pushed. *)
Lemma walk_lineNumber closed cur ws :
  map Acc.lineNumber (closed ++ [cur]) = seq 1 (length closed + 1) ->
  map Acc.lineNumber (walk closed cur ws)
  = seq 1 (length (walk closed cur ws)).
Proof.
  revert closed cur. induction ws as [|w ws IH]; intros closed cur Hn; simpl.
  - rewrite Hn, length_app; simpl. done.
  - destruct (lineThreshold <? _).
    + apply IH. rewrite map_app, Hn, !length_app; simpl.
      rewrite (seq_app (length closed + 1) 1 1); simpl.
      do 3 f_equal. lia.
    + apply IH. rewrite map_app in *. simpl in *. done.
Qed.

Lemma groupLoop_lineNumber ws :
  map Acc.lineNumber (lines (groupLoop ws))
  = seq 1 (length (lines (groupLoop ws))).
Proof.
  destruct ws as [|w ws]; [done|].
  rewrite groupLoop_cons. by apply walk_lineNumber.
Qed.

(** ** The specification's walk *)

Lemma specWalk_concat a line ws :
  concat (map snd (specWalk a line ws)) = line ++ ws.
Proof.
  revert a line. induction ws as [|w ws IH]; intros a line; simpl.
  - by rewrite !app_nil_r.
  - destruct (_ <=? 20); simpl; rewrite IH; [by rewrite <- app_assoc | done].
Qed.

Lemma specWalk_join a line rest ws :
  Forall (within a) rest ->
  specWalk a line (rest ++ ws) = specWalk a (line ++ rest) ws.
Proof.
  intros Hr. revert line.
  induction Hr as [|w rest Hw Hr IH]; intros line; simpl.
  - by rewrite app_nil_r.
  - unfold within in Hw. destruct (Z.leb_spec (Z.abs (topLeftY w - a)) 20); [|lia].
    rewrite IH. by rewrite <- app_assoc.
Qed.

Lemma specWalk_break a line w ws :
  ~ within a w ->
  specWalk a line (w :: ws) = (a, line) :: specWalk (topLeftY w) [w] ws.
Proof.
  unfold within. intros Hw; simpl.
  destruct (Z.leb_spec (Z.abs (topLeftY w - a)) 20); [lia | done].
Qed.

Lemma specWalk_grouped w rest ws :
  Forall (within (topLeftY w)) rest ->
  Grouped (specWalk (topLeftY w) (w :: rest) ws).
Proof.
  revert w rest. induction ws as [|v ws IH]; intros w rest Hr; simpl.
  - by constructor.
  - destruct (Z.leb_spec (Z.abs (topLeftY v - topLeftY w)) 20) as [Hv|Hv].
    + apply (IH w (rest ++ [v])). apply Forall_app. split; [done|].
      by constructor.
    + specialize (IH v [] (List.Forall_nil _)).
      assert (exists a' rest' gs,
                 specWalk (topLeftY v) [v] ws = (a', v :: rest') :: gs) as (a' & rest' & gs & Heq).
      { clear. generalize (topLeftY v) (@nil Detail.t).
        induction ws as [|u ws IH]; intros a rest; simpl; [by eauto|].
        destruct (_ <=? 20); [apply (IH a (rest ++ [u])) | by eauto]. }
      rewrite Heq in *. constructor; [done | unfold within; lia | done].
Qed.

Lemma specLines_grouped s : Grouped (specLines s).
Proof.
  destruct s as [|w ws]; [constructor|]. by apply specWalk_grouped.
Qed.

Lemma specLines_concat s : concat (map snd (specLines s)) = s.
Proof. destruct s as [|w ws]; [done|]. apply specWalk_concat. Qed.

(** The property determines the grouping: a grouping of [s] that obeys the
    rule is the one the walk computes. *)
Lemma Grouped_unique gs : Grouped gs -> gs = specLines (concat (map snd gs)).
Proof.
  induction 1 as [|w rest Hr|w rest a' w' rest' gs Hr Hw' Hg IH]; simpl.
  - done.
  - by rewrite specWalk_join.
  - rewrite (specWalk_join _ [w] rest) by done.
    rewrite specWalk_break by done. simpl in *.
    f_equal. inversion Hg; subst; exact IH.
Qed.

(** The bounding box of every line the loop builds is [lineBox] of its
    words, and no line is empty. *)
Lemma addWord_box cur w ws :
  Some (Acc.boundingBox cur) = lineBox ws -> Acc.words cur = ws ->
  Some (Acc.boundingBox (addWord cur w)) = lineBox (Acc.words (addWord cur w)).
Proof.
  intros Hb <-. simpl. destruct (Acc.words cur) as [|v rest]; [done|].
  simpl in *. injection Hb as Hb.
  by rewrite map_app, fold_left_app, <- Hb.
Qed.

Lemma walk_box closed cur ws :
  Forall (fun L => Some (Acc.boundingBox L) = lineBox (Acc.words L))
         (closed ++ [cur]) ->
  Forall (fun L => Some (Acc.boundingBox L) = lineBox (Acc.words L))
         (walk closed cur ws).
Proof.
  revert closed cur. induction ws as [|w ws IH]; intros closed cur Hc;
    simpl; [done|].
  destruct (lineThreshold <? _).
  - apply IH. apply Forall_app. split; [done|].
    apply Forall_singleton. reflexivity.
  - apply IH. apply Forall_app in Hc as [Hc Hcur].
    apply Forall_app. split; [done|]. apply Forall_singleton.
    rewrite Forall_singleton in Hcur. by apply (addWord_box _ _ (Acc.words cur)).
Qed.

Lemma groupLoop_box s :
  Forall (fun L => Some (Acc.boundingBox L) = lineBox (Acc.words L))
         (lines (groupLoop s)).
Proof.
  destruct s as [|w ws]; [constructor|].
  rewrite groupLoop_cons. apply walk_box.
  apply Forall_singleton. reflexivity.
Qed.

(** ** The output *)

Lemma organize_Some l :
  organizeTextByLines (Some l) = map outLine (builtLines l).
Proof. by destruct l. Qed.

Lemma organize_lines l :
  organizeTextByLines (Some l)
  = map (fun L => outLine (orderLine L))
        (lines (groupLoop (sort_by topLeftY l))).
Proof. rewrite organize_Some. unfold builtLines. by rewrite map_map. Qed.

Lemma groupLoop_words s : concat (map Acc.words (lines (groupLoop s))) = s.
Proof.
  rewrite <- (specLines_concat s) at 2. rewrite <- groupLoop_spec.
  by rewrite map_map.
Qed.

Lemma concat_perm {A} (f : list A -> list A) (ls : list (list A)) :
  (forall l, f l ≡ₚ l) -> concat (map f ls) ≡ₚ concat ls.
Proof.
  intros Hf. induction ls as [|l ls IH]; simpl; [done|].
  by rewrite Hf, IH.
Qed.

Lemma builtLines_words l : concat (map Acc.words (builtLines l)) ≡ₚ l.
Proof.
  unfold builtLines. rewrite map_map; simpl.
  rewrite <- (sort_by_perm topLeftY l) at 2.
  rewrite <- (groupLoop_words (sort_by topLeftY l)) at 2.
  rewrite <- (map_map Acc.words (sort_by topLeftX)).
  apply concat_perm, sort_by_perm.
Qed.

Lemma organize_words l :
  map OutLine.words (organizeTextByLines (Some l))
  = map (fun L => map outWord (Acc.words L)) (builtLines l).
Proof. rewrite organize_Some. by rewrite map_map. Qed.

Lemma organize_words_perm l :
  concat (map OutLine.words (organizeTextByLines (Some l))) ≡ₚ map outWord l.
Proof.
  rewrite organize_words.
  transitivity (map outWord (concat (map Acc.words (builtLines l))));
    [|by rewrite builtLines_words].
  generalize (builtLines l). intros ls.
  induction ls as [|L ls IH]; simpl; [done|].
  by rewrite map_app, IH.
Qed.

(** ** Independence of the order of the input *)

Lemma StronglySorted_filter {A} (R : A -> A -> Prop) (P : A -> Prop)
  `{forall a, Decision (P a)} l :
  StronglySorted R l -> StronglySorted R (filter P l).
Proof.
  induction 1 as [|a l Hl IH Ha]; [constructor|].
  rewrite filter_cons. case_decide; [|done].
  constructor; [done|].
  apply Forall_forall. intros b [_ Hb]%list_elem_of_filter.
  rewrite Forall_forall in Ha. by apply Ha.
Qed.

Lemma filter_all {A} (P : A -> Prop) `{forall a, Decision (P a)} l :
  Forall P l -> filter P l = l.
Proof.
  induction 1 as [|a l Ha Hl IH]; [done|].
  by rewrite filter_cons_True, IH.
Qed.

Lemma filter_none {A} (P : A -> Prop) `{forall a, Decision (P a)} l :
  Forall (fun a => ~ P a) l -> filter P l = [].
Proof.
  induction 1 as [|a l Ha Hl IH]; [done|].
  by rewrite filter_cons_False.
Qed.

(** Sorting by x a list that is sorted by y yields the order [lexXY]. *)
Lemma insert_by_lex a l :
  StronglySorted lexXY l ->
  Forall (fun b => topLeftY a <= topLeftY b) l ->
  StronglySorted lexXY (insert_by topLeftX a l).
Proof.
  induction 1 as [|b l Hl IH Hb]; intros Hy; simpl.
  - repeat constructor.
  - apply Forall_cons in Hy as [Hyb Hy].
    destruct (Z.leb_spec (topLeftX a) (topLeftX b)) as [Hab|Hab].
    + constructor; [by constructor|].
      constructor; [unfold lexXY; lia|].
      rewrite Forall_forall in Hb, Hy |- *. intros c Hc.
      specialize (Hb c Hc). specialize (Hy c Hc). unfold lexXY in *. lia.
    + constructor; [by apply IH|].
      rewrite insert_by_perm. constructor; [unfold lexXY; lia | done].
Qed.

Lemma sort_by_x_lex g :
  StronglySorted (le_key topLeftY) g ->
  StronglySorted lexXY (sort_by topLeftX g).
Proof.
  induction 1 as [|a g Hg IH Ha]; simpl; [constructor|].
  apply insert_by_lex; [done|].
  by rewrite sort_by_perm.
Qed.

Lemma sort_by_x_perm_eq g1 g2 :
  distinctCorners g1 -> g1 ≡ₚ g2 ->
  StronglySorted (le_key topLeftY) g1 ->
  StronglySorted (le_key topLeftY) g2 ->
  sort_by topLeftX g1 = sort_by topLeftX g2.
Proof.
  intros Hd Hp H1 H2.
  apply (StronglySorted_unique_strong lexXY).
  - intros a b Ha Hb Hab Hba. apply Hd.
    + by rewrite sort_by_perm in Ha.
    + by rewrite sort_by_perm, <- Hp in Hb.
    + unfold lexXY in *; lia.
    + unfold lexXY in *; lia.
  - by apply sort_by_x_lex.
  - by apply sort_by_x_lex.
  - by rewrite !sort_by_perm.
Qed.

(** On a list sorted by y, a line is made of the words whose y is at most
    20 above the anchor, and the walk goes on with the others. *)
Lemma specWalk_sorted a line ws :
  StronglySorted (le_key topLeftY) ws ->
  Forall (fun w => a <= topLeftY w) ws ->
  specWalk a line ws
  = (a, line ++ filter (fun w => topLeftY w <= a + 20) ws)
      :: specLines (filter (fun w => ~ topLeftY w <= a + 20) ws).
Proof.
  intros Hs. revert line.
  induction Hs as [|w ws Hs IH Hw]; intros line Ha.
  - simpl. by rewrite app_nil_r.
  - apply Forall_cons in Ha as [Haw Ha].
    cbn [specWalk].
    destruct (Z.leb_spec (Z.abs (topLeftY w - a)) 20) as [Hj|Hj].
    + rewrite IH by done.
      rewrite filter_cons_True by lia.
      rewrite (filter_cons_False _ w) by lia.
      by rewrite <- app_assoc.
    + assert (Forall (fun v => ~ topLeftY v <= a + 20) (w :: ws)) as Hall.
      { constructor; [lia|]. eapply Forall_impl; [exact Hw|].
        unfold le_key; simpl; intros; lia. }
      rewrite (filter_none (fun w => topLeftY w <= a + 20)) by done.
      rewrite (filter_all (fun w => ~ topLeftY w <= a + 20)) by done.
      by rewrite app_nil_r.
Qed.

Lemma sorted_heads_eq w1 ws1 w2 ws2 :
  w1 :: ws1 ≡ₚ w2 :: ws2 ->
  StronglySorted (le_key topLeftY) (w1 :: ws1) ->
  StronglySorted (le_key topLeftY) (w2 :: ws2) ->
  topLeftY w1 = topLeftY w2.
Proof.
  intros Hp H1 H2.
  apply StronglySorted_cons in H1 as [H1 _].
  apply StronglySorted_cons in H2 as [H2 _].
  rewrite Forall_forall in H1, H2.
  assert (w2 ∈ w1 :: ws1) as Hin1 by (rewrite Hp; left).
  assert (w1 ∈ w2 :: ws2) as Hin2 by (rewrite <- Hp; left).
  apply elem_of_cons in Hin1 as [->|Hin1]; [done|].
  apply elem_of_cons in Hin2 as [->|Hin2]; [done|].
  apply H1 in Hin1. apply H2 in Hin2. unfold le_key in *. lia.
Qed.

Lemma specLines_perm n s1 s2 :
  (length s1 < n)%nat -> s1 ≡ₚ s2 ->
  StronglySorted (le_key topLeftY) s1 ->
  StronglySorted (le_key topLeftY) s2 ->
  Forall2 sameLine (specLines s1) (specLines s2).
Proof.
  revert s1 s2. induction n as [|n IH]; intros s1 s2 Hn Hp H1 H2; [lia|].
  destruct s1 as [|w1 ws1].
  { apply Permutation_nil in Hp as ->. constructor. }
  destruct s2 as [|w2 ws2].
  { by apply Permutation_nil_r in Hp. }
  pose proof (sorted_heads_eq _ _ _ _ Hp H1 H2) as Hy.
  pose proof H1 as [Hle1 Hs1]%StronglySorted_cons.
  pose proof H2 as [Hle2 Hs2]%StronglySorted_cons.
  simpl. rewrite <- Hy. rewrite !specWalk_sorted; try done.
  2:{ eapply Forall_impl; [exact Hle2|]. unfold le_key; simpl; intros; lia. }
  set (a := topLeftY w1) in *.
  assert (forall P `{forall w, Decision (P w)},
             filter P (w1 :: ws1) ≡ₚ filter P (w2 :: ws2)) as Hf.
  { intros P ?. by rewrite Hp. }
  constructor.
  - repeat split; simpl.
    + specialize (Hf (fun w => topLeftY w <= a + 20) _).
      rewrite !filter_cons_True in Hf by (subst a; lia). done.
    + apply (StronglySorted_filter _ (fun w => topLeftY w <= a + 20)) in H1.
      rewrite filter_cons_True in H1 by (subst a; lia). done.
    + apply (StronglySorted_filter _ (fun w => topLeftY w <= a + 20)) in H2.
      rewrite filter_cons_True in H2 by (subst a; lia). done.
  - apply IH.
    + pose proof (length_filter (fun w => ~ topLeftY w <= a + 20) ws1).
      simpl in Hn. lia.
    + specialize (Hf (fun w => ~ topLeftY w <= a + 20) _).
      rewrite !filter_cons_False in Hf by (subst a; lia). done.
    + by apply StronglySorted_filter.
    + by apply StronglySorted_filter.
Qed.

Lemma specLines_elem s g w : g ∈ specLines s -> w ∈ snd g -> w ∈ s.
Proof.
  intros Hg Hw. rewrite <- (specLines_concat s).
  apply list_elem_of_In, in_concat. exists (snd g).
  split; [|by apply list_elem_of_In].
  apply in_map. by apply list_elem_of_In.
Qed.

Lemma map_pair_eq {A B C D} (f : A -> B) (g : A -> C) (h : B -> C -> D)
  (l1 l2 : list A) :
  map f l1 = map f l2 -> map g l1 = map g l2 ->
  map (fun a => h (f a) (g a)) l1 = map (fun a => h (f a) (g a)) l2.
Proof.
  revert l2. induction l1 as [|a l1 IH]; intros [|b l2] Hf Hg;
    simpl in *; try done.
  injection Hf as Hf1 Hf2. injection Hg as Hg1 Hg2.
  rewrite Hf1, Hg1. f_equal. by apply IH.
Qed.

Lemma sorted_words_perm_eq l1 l2 :
  l1 ≡ₚ l2 -> distinctCorners l1 ->
  map (fun g => sort_by topLeftX (snd g)) (specLines (sort_by topLeftY l1))
  = map (fun g => sort_by topLeftX (snd g)) (specLines (sort_by topLeftY l2)).
Proof.
  intros Hp Hd.
  assert (Forall2 sameLine (specLines (sort_by topLeftY l1))
                           (specLines (sort_by topLeftY l2))) as HF.
  { apply (specLines_perm (S (length (sort_by topLeftY l1)))); [lia| |
      apply sort_by_sorted..].
    by rewrite !sort_by_perm. }
  assert (forall g w, g ∈ specLines (sort_by topLeftY l1) -> w ∈ snd g -> w ∈ l1)
    as Hin.
  { intros g w Hg Hw. rewrite <- (sort_by_perm topLeftY l1).
    by eapply specLines_elem. }
  revert Hin. induction HF as [|g1 g2 gs1 gs2 (_ & Hg & Hs1 & Hs2) HF IH];
    intros Hin; simpl; [done|].
  f_equal.
  - apply sort_by_x_perm_eq; try done.
    intros a b Ha Hb. apply Hd; apply (Hin g1); try done; left.
  - apply IH. intros g w Hg' Hw. apply (Hin g); [by right | done].
Qed.

(** ** Well-formedness *)

Lemma groupLoop_nonempty s :
  Forall (fun L => Acc.words L <> []) (lines (groupLoop s)).
Proof.
  eapply Forall_impl; [apply groupLoop_box|].
  simpl. intros L HL Hnil. by rewrite Hnil in HL.
Qed.

Lemma organize_wellFormed td : Forall wellFormed (organizeTextByLines td).
Proof.
  destruct td as [l|]; [|constructor].
  rewrite organize_lines, Forall_map.
  eapply Forall_impl; [apply groupLoop_nonempty|].
  intros L HL. unfold wellFormed; simpl. repeat split.
  - by rewrite length_map.
  - intros Hnil. apply HL.
    apply (f_equal (@length _)) in Hnil.
    rewrite length_map, sort_by_length in Hnil.
    by destruct (Acc.words L).
  - by rewrite map_map.
Qed.

(** ** The store model *)

Lemma alloc_spec v (h : Heap.store) :
  exists r, Heap.alloc v h = Some (r, <[r := v]> h) /\ h !! r = None.
Proof.
  exists (fresh (dom h)). split; [done|].
  apply not_elem_of_dom, is_fresh.
Qed.

Lemma push_spec r x v (h : Heap.store) :
  h !! r = Some v -> Heap.push r x h = Some (tt, <[r := v ++ [x]]> h).
Proof.
  intros Hr. unfold Heap.push, Heap.bind, Heap.read, Heap.write.
  rewrite Hr; simpl. by rewrite ?Hr.
Qed.

(** [sort] rearranges the very array it is given. *)
Lemma sort_spec key r v (h : Heap.store) :
  h !! r = Some v -> Heap.sort key r h = Some (tt, <[r := sort_by key v]> h).
Proof.
  intros Hr. unfold Heap.sort, Heap.bind, Heap.read, Heap.write.
  rewrite Hr; simpl. by rewrite ?Hr.
Qed.

(** Sorting the caller's array itself, without the copy, would change it. *)
Lemma sort_without_copy :
  let l := [word "C" [(5, 60)]; word "A" [(50, 10)]] in
  exists h',
    Heap.sort topLeftY 7%nat {[ 7%nat := l ]} = Some (tt, h')
    /\ h' !! 7%nat = Some [word "A" [(50, 10)]; word "C" [(5, 60)]].
Proof.
  eexists. split; [apply sort_spec, lookup_singleton_eq|].
  apply lookup_insert_eq.
Qed.

Lemma repr_frame (h h' : Heap.store) LH L :
  repr h LH L -> h' !! Heap.words LH = h !! Heap.words LH -> repr h' LH L.
Proof. unfold repr. intros (?&?&?&?&?) Heq. by rewrite Heq. Qed.

Lemma Forall2_repr_frame (h h' : Heap.store) lsH ls :
  Forall2 (repr h) lsH ls ->
  (forall r, r ∈ map Heap.words lsH -> h' !! r = h !! r) ->
  Forall2 (repr h') lsH ls.
Proof.
  induction 1 as [|LH L lsH ls HL Hls IH]; intros Hf; constructor.
  - eapply repr_frame; [done|]. apply Hf. left.
  - apply IH. intros r Hr. apply Hf. by right.
Qed.

Lemma Lines_lookup h0 h lsH ls LH :
  Lines h0 h lsH ls -> LH ∈ lsH -> is_Some (h !! Heap.words LH).
Proof.
  intros (HF & _) Hin. revert Hin.
  induction HF as [|LH' L lsH ls HL Hls IH]; intros Hin.
  - by apply elem_of_nil in Hin.
  - apply elem_of_cons in Hin as [->|Hin]; [|by apply IH].
    destruct HL as (_&_&_&_&HL). by rewrite HL.
Qed.

(** A line over a newly allocated array is added at the end. *)
Lemma Lines_snoc h0 h lsH ls r LH L :
  Lines h0 h lsH ls -> h !! r = None ->
  Heap.words LH = r ->
  Heap.lineNumber LH = Acc.lineNumber L ->
  Heap.averageY LH = Acc.averageY L ->
  Heap.text LH = Acc.text L ->
  Heap.boundingBox LH = Acc.boundingBox L ->
  Lines h0 (<[r := Acc.words L]> h) (lsH ++ [LH]) (ls ++ [L]).
Proof.
  intros HL Hr Hw Hn Ha Ht Hb.
  assert (forall LH', LH' ∈ lsH -> Heap.words LH' <> r) as Hne.
  { intros LH' Hin Heq. destruct (Lines_lookup _ _ _ _ _ HL Hin) as [v Hv].
    rewrite Heq in Hv. congruence. }
  destruct HL as (HF & Hnd & Hfr & Hsub).
  repeat split.
  - apply Forall2_app.
    + eapply Forall2_repr_frame; [done|]. intros r' Hr'.
      apply list_elem_of_In, in_map_iff in Hr' as (LH' & <- & Hin).
      apply list_elem_of_In in Hin. by rewrite lookup_insert_ne by (symmetry; auto).
    + repeat constructor; try done. by rewrite Hw, lookup_insert_eq.
  - rewrite map_app. apply NoDup_app. split; [done|]. split.
    + intros r' Hr' Hin. apply list_elem_of_In, in_map_iff in Hr' as (LH' & <- & Hin').
      apply list_elem_of_In in Hin'. apply (Hne _ Hin').
      simpl in Hin. apply list_elem_of_singleton in Hin. congruence.
    + apply NoDup_singleton.
  - apply Forall_app. split; [done|]. apply Forall_singleton.
    rewrite Hw. by eapply lookup_weaken_None.
  - apply insert_subseteq_r; [|done]. by eapply lookup_weaken_None.
Qed.

(** The array of one of the lines is overwritten. *)
Lemma Lines_update h0 h lsH lsH2 ls ls2 curH cur curH' cur' :
  Lines h0 h (lsH ++ curH :: lsH2) (ls ++ cur :: ls2) ->
  length lsH = length ls ->
  Heap.words curH' = Heap.words curH ->
  Heap.lineNumber curH' = Acc.lineNumber cur' ->
  Heap.averageY curH' = Acc.averageY cur' ->
  Heap.text curH' = Acc.text cur' ->
  Heap.boundingBox curH' = Acc.boundingBox cur' ->
  Lines h0 (<[Heap.words curH := Acc.words cur']> h)
        (lsH ++ curH' :: lsH2) (ls ++ cur' :: ls2).
Proof.
  intros (HF & Hnd & Hfr & Hsub) Hlen Hw Hn Ha Ht Hb.
  rewrite map_app in Hnd. simpl in Hnd.
  apply NoDup_app in Hnd as (Hnd1 & Hdis & Hnd2).
  apply NoDup_cons in Hnd2 as [Hnotin Hnd2].
  apply Forall_app in Hfr as [Hfr1 Hfr2].
  apply Forall_cons in Hfr2 as [Hfrc Hfr2].
  apply Forall2_app_inv in HF as [HF1 HF2]; [|done].
  inversion HF2 as [|? ? ? ? Hcur HF2']; subst.
  repeat split.
  - apply Forall2_app; [|constructor].
    + eapply Forall2_repr_frame; [done|]. intros r' Hr'.
      rewrite lookup_insert_ne; [done|]. intros <-.
      apply (Hdis _ Hr'). left.
    + repeat split; try done. by rewrite Hw, lookup_insert_eq.
    + eapply Forall2_repr_frame; [done|]. intros r' Hr'.
      rewrite lookup_insert_ne; [done|]. by intros <-.
  - rewrite map_app. simpl. rewrite Hw. apply NoDup_app.
    split; [done|]. split; [done|]. by apply NoDup_cons.
  - apply Forall_app. split; [done|]. apply Forall_cons. by rewrite Hw.
  - by apply insert_subseteq_r.
Qed.

Lemma Lines_length h0 h lsH ls : Lines h0 h lsH ls -> length lsH = length ls.
Proof. intros (HF & _). by eapply Forall2_length. Qed.

Lemma pushLine_spec h0 h lsH ls c w :
  Lines h0 h lsH ls ->
  exists new h',
    Heap.pushLine {| Heap.lines := lsH; Heap.currentLine := c |} w h
    = Some ({| Heap.lines := lsH ++ [new];
               Heap.currentLine := Some (length lsH) |}, h')
    /\ Lines h0 h' (lsH ++ [new]) (ls ++ [newLine (length ls + 1) w]).
Proof.
  intros HL. destruct (alloc_spec [w] h) as (r & Hal & Hr).
  unfold Heap.pushLine, Heap.newLine, Heap.bind. rewrite Hal. simpl.
  eexists _, _. split; [reflexivity|].
  apply (Lines_snoc h0 h lsH ls r _ (newLine (length ls + 1) w)); try done.
  simpl. by rewrite (Lines_length _ _ _ _ HL).
Qed.

Lemma addWord_spec h curH cur w :
  repr h curH cur ->
  exists curH',
    Heap.addWord curH w h
    = Some (curH', <[Heap.words curH := Acc.words (addWord cur w)]> h)
    /\ Heap.words curH' = Heap.words curH
    /\ Heap.lineNumber curH' = Acc.lineNumber (addWord cur w)
    /\ Heap.averageY curH' = Acc.averageY (addWord cur w)
    /\ Heap.text curH' = Acc.text (addWord cur w)
    /\ Heap.boundingBox curH' = Acc.boundingBox (addWord cur w).
Proof.
  intros (Hn & Ha & Ht & Hb & Hw).
  unfold Heap.addWord, Heap.bind. rewrite (push_spec _ _ _ _ Hw). simpl.
  eexists. split; [reflexivity|]. simpl. by rewrite Hn, Ha, Ht, Hb.
Qed.

Lemma Lines_last_repr h0 h closedH curH closed cur :
  Lines h0 h (closedH ++ [curH]) (closed ++ [cur]) ->
  length closedH = length closed /\ repr h curH cur.
Proof.
  intros HL. pose proof (Lines_length _ _ _ _ HL) as Hlen.
  rewrite !length_app in Hlen. simpl in Hlen.
  assert (length closedH = length closed) as Hl by lia. split; [done|].
  destruct HL as (HF & _).
  apply Forall2_app_inv in HF as [_ HF]; [|done]. by inversion HF.
Qed.

(** The loop of the store model builds the lines of [walk]. *)
Lemma foldM_walk h0 ws :
  forall closedH curH closed cur h,
    Lines h0 h (closedH ++ [curH]) (closed ++ [cur]) ->
    exists stH h',
      Heap.foldM Heap.loopBody ws
        {| Heap.lines := closedH ++ [curH];
           Heap.currentLine := Some (length closedH) |} h
      = Some (stH, h')
      /\ Lines h0 h' (Heap.lines stH) (walk closed cur ws).
Proof.
  induction ws as [|w ws IH]; intros closedH curH closed cur h HL.
  - eexists _, _. split; [reflexivity|]. done.
  - destruct (Lines_last_repr _ _ _ _ _ _ HL) as [Hlen Hcur].
    cbn [Heap.foldM walk]. unfold Heap.bind at 1.
    unfold Heap.loopBody, Heap.deref. cbn [Heap.currentLine Heap.lines].
    rewrite list_lookup_middle by done.
    replace (Heap.averageY curH) with (Acc.averageY cur)
      by (symmetry; apply Hcur).
    destruct (lineThreshold <? _).
    + destruct (pushLine_spec h0 h _ _ (Some (length closedH)) w HL)
        as (new & h' & Hp & HL').
      rewrite Hp.
      replace (length (closed ++ [cur]) + 1)%nat
        with (length closed + 2)%nat in HL'
        by (rewrite length_app; simpl; lia).
      apply (IH _ _ _ _ _ HL').
    + destruct (addWord_spec h curH cur w Hcur)
        as (curH' & Hadd & Hw & Hn & Ha & Ht & Hb).
      unfold Heap.bind at 1. rewrite Hadd.
      unfold Heap.ret at 1.
      rewrite insert_app_r_alt by lia.
      replace (length closedH - length closedH)%nat with 0%nat by lia.
      cbn [insert list_insert].
      apply IH.
      by apply (Lines_update h0 h closedH [] closed [] curH cur).
Qed.

Lemma foldM_groupLoop h0 h s :
  h0 ⊆ h ->
  exists stH h',
    Heap.foldM Heap.loopBody s Heap.initLoop h = Some (stH, h')
    /\ Lines h0 h' (Heap.lines stH) (lines (groupLoop s)).
Proof.
  intros Hsub.
  assert (Lines h0 h [] []) as HL.
  { repeat split; try done; constructor. }
  destruct s as [|w ws].
  - eexists _, _. split; [reflexivity|]. done.
  - rewrite groupLoop_cons. cbn [Heap.foldM]. unfold Heap.bind at 1.
    change (Heap.loopBody Heap.initLoop w) with (Heap.pushLine Heap.initLoop w).
    destruct (pushLine_spec h0 h [] [] None w HL) as (new & h' & Hp & HL').
    unfold Heap.initLoop. rewrite Hp.
    apply (foldM_walk h0 ws [] new [] (newLine 1 w) h' HL').
Qed.

Lemma orderLine_spec h LH L :
  repr h LH L ->
  exists LH',
    Heap.orderLine LH h
    = Some (LH', <[Heap.words LH := Acc.words (orderLine L)]> h)
    /\ Heap.words LH' = Heap.words LH
    /\ Heap.lineNumber LH' = Acc.lineNumber (orderLine L)
    /\ Heap.averageY LH' = Acc.averageY (orderLine L)
    /\ Heap.text LH' = Acc.text (orderLine L)
    /\ Heap.boundingBox LH' = Acc.boundingBox (orderLine L).
Proof.
  intros (Hn & Ha & Ht & Hb & Hw).
  unfold Heap.orderLine, Heap.bind. rewrite (sort_spec _ _ _ _ Hw).
  unfold Heap.read. rewrite lookup_insert_eq. simpl.
  eexists. split; [reflexivity|]. simpl. by rewrite Hn, Ha, Hb.
Qed.

Lemma mapM_orderLine h0 lsH :
  forall doneH done ls h,
    Lines h0 h (doneH ++ lsH) (done ++ ls) ->
    length doneH = length done ->
    exists lsH' h',
      Heap.mapM Heap.orderLine lsH h = Some (lsH', h')
      /\ Lines h0 h' (doneH ++ lsH') (done ++ map orderLine ls).
Proof.
  induction lsH as [|LH lsH IH]; intros doneH done ls h HL Hlen.
  - pose proof (Lines_length _ _ _ _ HL) as Hl. rewrite !length_app in Hl.
    destruct ls; [|simpl in Hl; lia].
    eexists _, _. split; [reflexivity|]. done.
  - pose proof (Lines_length _ _ _ _ HL) as Hl. rewrite !length_app in Hl.
    destruct ls as [|L ls]; [simpl in Hl; lia|].
    assert (repr h LH L) as HLH.
    { destruct HL as (HF & _).
      apply Forall2_app_inv in HF as [_ HF]; [|done]. by inversion HF. }
    destruct (orderLine_spec h LH L HLH) as (LH' & Ho & Hw & Hn & Ha & Ht & Hb).
    cbn [Heap.mapM map]. unfold Heap.bind at 1. rewrite Ho.
    pose proof (Lines_update h0 h doneH lsH done ls LH L LH' (orderLine L)
                  HL Hlen Hw Hn Ha Ht Hb) as HL'.
    rewrite (cons_middle LH'), (cons_middle (orderLine L)), !app_assoc in HL'.
    destruct (IH (doneH ++ [LH']) (done ++ [orderLine L]) ls _ HL')
      as (lsH' & h' & Hm & HL'').
    { rewrite !length_app. simpl. lia. }
    unfold Heap.bind at 1. rewrite Hm. unfold Heap.ret.
    eexists _, _. split; [reflexivity|].
    by rewrite <- !app_assoc in HL''.
Qed.

Lemma outLine_spec h LH L :
  repr h LH L -> Heap.outLine LH h = Some (outLine L, h).
Proof.
  intros (Hn & Ha & Ht & Hb & Hw).
  unfold Heap.outLine, Heap.bind, Heap.read. rewrite Hw.
  unfold Heap.ret, outLine. by rewrite Hn, Ht, Hb.
Qed.

Lemma mapM_outLine h lsH ls :
  Forall2 (repr h) lsH ls ->
  Heap.mapM Heap.outLine lsH h = Some (map outLine ls, h).
Proof.
  induction 1 as [|LH L lsH ls HL HF IH]; [done|].
  cbn [Heap.mapM map]. unfold Heap.bind at 1.
  rewrite (outLine_spec _ _ _ HL).
  unfold Heap.bind at 1. by rewrite IH.
Qed.

(** The call returns what the function on lists returns, and leaves every
    array of the store it was started in as it was. *)
Lemma organize_store (h : Heap.store) a l :
  h !! a = Some l ->
  exists h',
    Heap.organizeTextByLines (Some a) h
    = Some (organizeTextByLines (Some l), h')
    /\ h ⊆ h'.
Proof.
  intros Ha. unfold Heap.organizeTextByLines, Heap.bind at 1, Heap.read at 1.
  rewrite Ha. destruct l as [|w l]; [by eexists|].
  set (given := w :: l) in *.
  destruct (alloc_spec given h) as (r & Hal & Hr).
  unfold Heap.bind at 1, Heap.slice, Heap.bind at 1, Heap.read at 1.
  rewrite Ha, Hal.
  unfold Heap.bind at 1.
  rewrite (sort_spec topLeftY r given) by apply lookup_insert_eq.
  rewrite insert_insert_eq.
  unfold Heap.bind at 1, Heap.read at 1. rewrite lookup_insert_eq.
  assert (h ⊆ <[r := sort_by topLeftY given]> h) as Hsub
    by (by apply insert_subseteq).
  destruct (foldM_groupLoop h _ (sort_by topLeftY given) Hsub)
    as (stH & h1 & Hfold & HL1).
  unfold Heap.bind at 1. rewrite Hfold.
  destruct (mapM_orderLine h (Heap.lines stH) [] [] _ h1 HL1 eq_refl)
    as (lsH & h2 & Hmap & HL2).
  unfold Heap.bind at 1. rewrite Hmap.
  simpl in HL2. destruct HL2 as (HF & _ & _ & Hsub2).
  rewrite (mapM_outLine h2 lsH _ HF).
  by eexists.
Qed.

Lemma successResult_store trim splitCount now detections (h : Heap.store) :
  exists h',
    Heap.successResult trim splitCount now detections h
    = Some (successResult trim splitCount now detections, h')
    /\ h ⊆ h'.
Proof.
  set (textDetails := map toDetail (drop 1 detections)).
  destruct (alloc_spec textDetails h) as (r & Hal & Hr).
  destruct (organize_store (<[r := textDetails]> h) r textDetails)
    as (h' & Ho & Hsub); [apply lookup_insert_eq|].
  unfold Heap.successResult, Heap.bind at 1. fold textDetails. rewrite Hal.
  unfold Heap.bind at 1. rewrite Ho.
  unfold Heap.bind at 1, Heap.read.
  rewrite (lookup_weaken _ _ r textDetails (lookup_insert_eq h r textDetails) Hsub).
  exists h'. split; [reflexivity|].
  etransitivity; [|exact Hsub]. by apply insert_subseteq.
Qed.

Lemma detectText_store trim splitCount now env outcome (h : Heap.store) :
  exists h',
    Heap.detectText trim splitCount now env outcome h
    = Some (detectText trim splitCount now env outcome, h')
    /\ h ⊆ h'.
Proof.
  unfold Heap.detectText, detectText.
  destruct (negb _ && negb _); [by eexists|].
  destruct outcome as [e|[[|d ds]|]]; try (by eexists).
  apply successResult_store.
Qed.

(** ** Arguments that are not lists of annotations *)












(** The call throws for an array that holds a [null] or an [undefined],
    wherever it stands. *)
Lemma null_element_throws :
  Js.organizeTextByLines (Js.AArray [Js.ENull]) = Js.ThrowsTypeError
  /\ Js.organizeTextByLines (Js.AArray [Js.EUndefined]) = Js.ThrowsTypeError
  /\ Js.organizeTextByLines
       (Js.AArray [Js.EObject (word "A" [(50, 10)]); Js.EUndefined;
                   Js.EObject (word "B" [(10, 12)])])
     = Js.ThrowsTypeError
  /\ Js.organizeTextByLines (Js.ANumber 5) = Js.ThrowsTypeError.
Proof. repeat split. Qed.


(** * The stated properties *)

(** C1.  [organizeTextByLines] sorts the words ascending by top-left y (a
    stable rearrangement of the input) and walks them in that order: the
    anchors and words of the lines it builds are those of the
    specification's walk [specLines], in which a word joins the current
    line exactly when it is within 20 of the anchor and otherwise opens a
    new line anchored at its own y; every line's anchor is the y of the word
    that opened it ([Grouped]), the lines taken in order spell the sorted
    list, and the output is these lines, each with its words ordered. *)
Theorem grouping_rule (textDetails : list Detail.t) :
  let sortedTexts := sort_by topLeftY textDetails in
  let built := lines (groupLoop sortedTexts) in
  (sortedTexts ≡ₚ textDetails
   /\ StronglySorted (le_key topLeftY) sortedTexts
   /\ forall k, filter (fun w => topLeftY w = k) sortedTexts
                = filter (fun w => topLeftY w = k) textDetails)
  /\ map anchored built = specLines sortedTexts
  /\ Grouped (map anchored built)
  /\ concat (map Acc.words built) = sortedTexts
  /\ organizeTextByLines (Some textDetails)
     = map (fun L => outLine (orderLine L)) built.
Proof.
  simpl. repeat split.
  - apply sort_by_perm.
  - apply sort_by_sorted.
  - intros k. apply sort_by_stable.
  - apply groupLoop_spec.
  - rewrite groupLoop_spec. apply specLines_grouped.
  - apply groupLoop_words.
  - apply organize_lines.
Qed.

(** C2.  The words of the output lines, taken together, are the input
    words, each exactly once: the lines built hold a rearrangement of the
    input list, and the output words are their images under [outWord]. *)
Theorem lines_partition (textDetails : list Detail.t) :
  concat (map Acc.words (builtLines textDetails)) ≡ₚ textDetails
  /\ map OutLine.words (organizeTextByLines (Some textDetails))
     = map (fun L => map outWord (Acc.words L)) (builtLines textDetails)
  /\ concat (map OutLine.words (organizeTextByLines (Some textDetails)))
     ≡ₚ map outWord textDetails.
Proof.
  split; [apply builtLines_words|].
  split; [apply organize_words | apply organize_words_perm].
Qed.

(** C3.  In every output line the words are in non-decreasing order of
    their x position, and the text is the words' texts joined by single
    spaces in that order. *)
Theorem line_words_ordered (textDetails : option (list Detail.t)) :
  Forall (fun L =>
            StronglySorted
              (fun a b => Pos.x (OutWord.position a) <= Pos.x (OutWord.position b))
              (OutLine.words L)
            /\ OutLine.text L
               = String.concat " " (map OutWord.text (OutLine.words L)))
         (organizeTextByLines textDetails).
Proof.
  destruct textDetails as [l|]; [|constructor].
  rewrite organize_Some. unfold builtLines. rewrite !Forall_map.
  apply Forall_forall. intros L _. simpl. split.
  - generalize (sort_by_sorted topLeftX (Acc.words L)).
    induction 1 as [|a ws Hs IH Ha]; simpl; constructor; [done|].
    by rewrite Forall_map.
  - by rewrite map_map.
Qed.

(** C8.  The line numbers of the output are 1, 2, ..., n in output order. *)
Theorem line_numbers_contiguous (textDetails : option (list Detail.t)) :
  map OutLine.lineNumber (organizeTextByLines textDetails)
  = seq 1 (length (organizeTextByLines textDetails)).
Proof.
  destruct textDetails as [l|]; [|done].
  rewrite organize_lines, length_map, map_map; simpl.
  apply groupLoop_lineNumber.
Qed.

(** C9.  Words A (y=10, x=50), B (y=12, x=10) and C (y=60, x=5), whatever
    their scores and other corners, give two lines: line 1 is "B A" and
    line 2 is "C". *)
Theorem example_three_words cA cB cC restA restB restC :
  map (fun L => (OutLine.lineNumber L, OutLine.text L,
                 map OutWord.text (OutLine.words L)))
      (organizeTextByLines
         (Some [wordAt "A" cA 50 10 restA; wordAt "B" cB 10 12 restB;
                wordAt "C" cC 5 60 restC]))
  = [(1%nat, "B A"%string, ["B"%string; "A"%string]);
     (2%nat, "C"%string, ["C"%string])].
Proof. reflexivity. Qed.

(** C7, as the code has it.  Two input lists that are rearrangements of
    one another, in which no two different words share a top-left corner,
    give the same lines in the same order, with the same line numbers, words,
    word order, word counts and texts.  (The bounding boxes are left out:
    see [bounding_box_depends_on_order].) *)
Theorem order_independent (l1 l2 : list Detail.t) :
  l1 ≡ₚ l2 -> distinctCorners l1 ->
  map contents (organizeTextByLines (Some l1))
  = map contents (organizeTextByLines (Some l2)).
Proof.
  intros Hp Hd. rewrite !organize_lines, !map_map.
  change (fun L => contents (outLine (orderLine L)))
    with (fun L => contentsOf (Acc.lineNumber L) (sort_by topLeftX (Acc.words L))).
  pose proof (sorted_words_perm_eq l1 l2 Hp Hd) as Hw.
  rewrite <- !groupLoop_spec, !map_map in Hw. simpl in Hw.
  apply map_pair_eq; [|exact Hw].
  rewrite !groupLoop_lineNumber. f_equal.
  apply (f_equal length) in Hw. by rewrite !length_map in Hw.
Qed.

Lemma order_independent_witness :
  map contents
    (organizeTextByLines
       (Some [word "A" [(50, 10)]; word "B" [(10, 12)]; word "C" [(5, 60)]]))
  = map contents
      (organizeTextByLines
         (Some [word "C" [(5, 60)]; word "B" [(10, 12)]; word "A" [(50, 10)]])).
Proof.
  apply order_independent.
  - apply Permutation_sym.
    eapply Permutation_trans; [apply Permutation_swap|].
    eapply Permutation_trans; [apply Permutation_skip, Permutation_swap|].
    apply Permutation_swap.
  - intros a b Ha Hb.
    repeat (apply elem_of_cons in Ha as [->|Ha]);
      repeat (apply elem_of_cons in Hb as [->|Hb]);
      try (by apply elem_of_nil in Ha); try (by apply elem_of_nil in Hb);
      vm_compute; congruence.
Defined.

(** C7, as stated, fails: two words without coordinates (the mock details
    of the service) come out in the order they went in. *)
Lemma order_dependence :
  [mockWord "Mock" (95 # 100)%Q; mockWord "OCR" (98 # 100)%Q]
    ≡ₚ [mockWord "OCR" (98 # 100)%Q; mockWord "Mock" (95 # 100)%Q]
  /\ map OutLine.text
       (organizeTextByLines
          (Some [mockWord "Mock" (95 # 100)%Q; mockWord "OCR" (98 # 100)%Q]))
     = ["Mock OCR"%string]
  /\ map OutLine.text
       (organizeTextByLines
          (Some [mockWord "OCR" (98 # 100)%Q; mockWord "Mock" (95 # 100)%Q]))
     = ["OCR Mock"%string]
  /\ organizeTextByLines
       (Some [mockWord "Mock" (95 # 100)%Q; mockWord "OCR" (98 # 100)%Q])
     <> organizeTextByLines
          (Some [mockWord "OCR" (98 # 100)%Q; mockWord "Mock" (95 # 100)%Q]).
Proof.
  split; [apply Permutation_swap|]. split; [reflexivity|].
  split; [reflexivity|]. intros H. apply (f_equal (map OutLine.text)) in H.
  vm_compute in H. discriminate.
Qed.

(** The bounding box depends on the order even among words of distinct
    corners: of two words with the same y, the one that comes first opens
    the line, and the line's box ignores the far corner of its opener. *)
Lemma bounding_box_depends_on_order :
  let A := word "A" [(0, 0); (10, 0); (10, 10); (0, 10)] in
  let B := word "B" [(20, 0); (30, 0); (30, 10); (20, 10)] in
  map OutLine.boundingBox (organizeTextByLines (Some [A; B]))
  = [{| Box.minX := 0; Box.maxX := 30; Box.minY := 0; Box.maxY := 10 |}]
  /\ map OutLine.boundingBox (organizeTextByLines (Some [B; A]))
     = [{| Box.minX := 0; Box.maxX := 20; Box.minY := 0; Box.maxY := 10 |}].
Proof. split; reflexivity. Qed.

(** C4.  The code at a single word whose polygon runs from (0,0) to
    (10,10): the line's box is the top-left corner alone, while the box
    covering the word, as the specification words it, reaches (10,10).  In
    general the box of a line is [lineBox] of its words ([groupLoop_box]):
    the far corner of the word that opens the line is never read. *)
Theorem opener_extent_dropped :
  let A := word "A" [(0, 0); (10, 0); (10, 10); (0, 10)] in
  map OutLine.boundingBox (organizeTextByLines (Some [A]))
  = [{| Box.minX := 0; Box.maxX := 0; Box.minY := 0; Box.maxY := 0 |}]
  /\ coveringBox [A]
     = Some {| Box.minX := 0; Box.maxX := 10; Box.minY := 0; Box.maxY := 10 |}
  /\ lineBox [A]
     = Some {| Box.minX := 0; Box.maxX := 0; Box.minY := 0; Box.maxY := 0 |}.
Proof. repeat split. Qed.

(** C5, as the code has it.  With credentials configured, when the
    provider yields no annotations ([textAnnotations] absent or empty),
    [detectText] returns the no-text result: not a success, not an error,
    with empty text and an empty details list, and with no [lines] field
    at all. *)
Theorem no_text_result trim splitCount now env textAnnotations :
  isSet (Env.GOOGLE_CLOUD_API_KEY env)
  || isSet (Env.GOOGLE_APPLICATION_CREDENTIALS env) = true ->
  textAnnotations = None \/ textAnnotations = Some [] ->
  let r := detectText trim splitCount now env (Resolved textAnnotations) in
  r = noTextResult
  /\ Result.success r = false
  /\ Result.text r = ""%string
  /\ Result.details r = []
  /\ Result.lines r = None
  /\ Result.error r = None.
Proof.
  intros Hc Ha. unfold detectText.
  replace (negb (isSet (Env.GOOGLE_CLOUD_API_KEY env))
           && negb (isSet (Env.GOOGLE_APPLICATION_CREDENTIALS env)))
    with false
    by (destruct (isSet (Env.GOOGLE_CLOUD_API_KEY env)),
                 (isSet (Env.GOOGLE_APPLICATION_CREDENTIALS env)); done).
  by destruct Ha as [-> | ->].
Qed.

Lemma no_text_result_witness :
  let r := detectText (fun s => s) (fun _ => 1%nat) ""
             {| Env.GOOGLE_CLOUD_API_KEY := Some "key"%string;
                Env.GOOGLE_APPLICATION_CREDENTIALS := None |}
             (Resolved (Some [])) in
  r = noTextResult
  /\ Result.success r = false
  /\ Result.text r = ""%string
  /\ Result.details r = []
  /\ Result.lines r = None
  /\ Result.error r = None.
Proof.
  apply (no_text_result (fun s => s) (fun _ => 1%nat) ""
           {| Env.GOOGLE_CLOUD_API_KEY := Some "key"%string;
              Env.GOOGLE_APPLICATION_CREDENTIALS := None |} (Some [])).
  - reflexivity.
  - right. reflexivity.
Defined.

(** C5, as stated, fails: the no-text result has no line list, empty or
    otherwise. *)
Lemma lines_field_absent :
  Result.lines
    (detectText (fun s => s) (fun _ => 1%nat) ""
       {| Env.GOOGLE_CLOUD_API_KEY := Some "key"%string;
          Env.GOOGLE_APPLICATION_CREDENTIALS := None |}
       (Resolved (Some [])))
  <> Some [].
Proof. vm_compute. discriminate. Qed.




(** C10.  Run against a store in which the argument is the array [a]
    holding [l], [organizeTextByLines] returns the lines of [l] and leaves
    [a] holding [l], in the same order, as it leaves every other array that
    existed before the call: the array it sorts is a copy.  (The words are
    values of the model: no statement of the source assigns to a field of a
    word.)  Hence the details of the result of [detectText], which are the
    array handed to [organizeTextByLines], are the provider's annotations
    after the first, in the provider's order. *)
Theorem argument_untouched trim splitCount now env d ds
  (h : Heap.store) (a : nat) (l : list Detail.t) :
  h !! a = Some l ->
  isSet (Env.GOOGLE_CLOUD_API_KEY env)
  || isSet (Env.GOOGLE_APPLICATION_CREDENTIALS env) = true ->
  (exists h',
      Heap.organizeTextByLines (Some a) h
      = Some (organizeTextByLines (Some l), h')
      /\ h' !! a = Some l
      /\ forall k v, h !! k = Some v -> h' !! k = Some v)
  /\ (exists r h',
         Heap.detectText trim splitCount now env (Resolved (Some (d :: ds))) h
         = Some (r, h')
         /\ r = detectText trim splitCount now env (Resolved (Some (d :: ds)))
         /\ Result.details r = map toDetail ds
         /\ Result.lines r
            = Some (organizeTextByLines (Some (map toDetail ds)))
         /\ forall k v, h !! k = Some v -> h' !! k = Some v).
Proof.
  intros Ha Hc. split.
  - destruct (organize_store h a l Ha) as (h' & Ho & Hsub).
    exists h'. split; [done|].
    split; intros; by eapply lookup_weaken.
  - destruct (detectText_store trim splitCount now env
                (Resolved (Some (d :: ds))) h) as (h' & Hd & Hsub).
    eexists _, h'. split; [exact Hd|]. split; [done|].
    assert (negb (isSet (Env.GOOGLE_CLOUD_API_KEY env))
            && negb (isSet (Env.GOOGLE_APPLICATION_CREDENTIALS env)) = false)
      as Hm
      by (destruct (isSet (Env.GOOGLE_CLOUD_API_KEY env)),
                   (isSet (Env.GOOGLE_APPLICATION_CREDENTIALS env)); done).
    unfold detectText. rewrite Hm.
    split; [done|]. split; [done|]. intros; by eapply lookup_weaken.
Qed.

Lemma argument_untouched_witness :
  let h : Heap.store :=
    {[ 7%nat := [word "A" [(50, 10)]; word "B" [(10, 12)]; word "C" [(5, 60)]] ]} in
  let l := [word "A" [(50, 10)]; word "B" [(10, 12)]; word "C" [(5, 60)]] in
  let env := {| Env.GOOGLE_CLOUD_API_KEY := Some "key"%string;
                Env.GOOGLE_APPLICATION_CREDENTIALS := None |} in
  let d := Annotation.mk "B A C" None None in
  let ds := [Annotation.mk "A" None None; Annotation.mk "B" (Some (1 # 2)%Q) None] in
  (exists h',
      Heap.organizeTextByLines (Some 7%nat) h
      = Some (organizeTextByLines (Some l), h')
      /\ h' !! 7%nat = Some l
      /\ forall k v, h !! k = Some v -> h' !! k = Some v)
  /\ (exists r h',
         Heap.detectText (fun s => s) (fun _ => 3%nat) "" env
           (Resolved (Some (d :: ds))) h
         = Some (r, h')
         /\ r = detectText (fun s => s) (fun _ => 3%nat) "" env
                  (Resolved (Some (d :: ds)))
         /\ Result.details r = map toDetail ds
         /\ Result.lines r
            = Some (organizeTextByLines (Some (map toDetail ds)))
         /\ forall k v, h !! k = Some v -> h' !! k = Some v).
Proof.
  apply (argument_untouched (fun s => s) (fun _ => 3%nat) "").
  - reflexivity.
  - reflexivity.
Defined.

(** * Further properties of the line reconstruction *)

Lemma length_concat_sum {A} (ls : list (list A)) :
  length (concat ls) = sum_list_with (@length A) ls.
Proof.
  induction ls as [|l ls IH]; simpl; [done|].
  by rewrite length_app, IH.
Qed.

Lemma sum_wordCount l :
  sum_list_with OutLine.wordCount (organizeTextByLines (Some l)) = length l.
Proof.
  rewrite <- (length_map outWord l), <- (organize_words_perm l).
  rewrite length_concat_sum.
  pose proof (organize_wellFormed (Some l)) as Hwf.
  induction Hwf as [|L ls (Hc & _) _ IH]; simpl; [done|].
  by rewrite Hc, IH.
Qed.

Lemma lines_le_wordCount l :
  (length (organizeTextByLines (Some l))
   <= sum_list_with OutLine.wordCount (organizeTextByLines (Some l)))%nat.
Proof.
  pose proof (organize_wellFormed (Some l)) as Hwf.
  induction Hwf as [|L ls (Hc & Hne & _) _ IH]; simpl; [done|].
  destruct (OutLine.words L); [done|]. simpl in Hc. lia.
Qed.

(** X1.  The word counts of the lines add up to the number of input words;
    there are at most as many lines as words, and no line at all only for
    an empty input. *)
Theorem word_counts_add_up (textDetails : list Detail.t) :
  let out := organizeTextByLines (Some textDetails) in
  sum_list_with OutLine.wordCount out = length textDetails
  /\ (length out <= length textDetails)%nat
  /\ (out = [] <-> textDetails = []).
Proof.
  cbv zeta. pose proof (sum_wordCount textDetails) as Hs.
  pose proof (lines_le_wordCount textDetails) as Hl.
  split; [done|]. split; [lia|]. split.
  - intros Hnil. rewrite Hnil in Hs. simpl in Hs.
    by destruct textDetails.
  - by intros ->.
Qed.

(** Lines as vertical bands. *)

Lemma specWalk_head a line ws :
  exists gs, specWalk a line ws = gs /\ gs <> [].
Proof.
  revert a line. induction ws as [|w ws IH]; intros a line; simpl; [by eexists|].
  destruct (_ <=? 20); [apply IH | by eexists].
Qed.

Lemma specLines_nil s : specLines s = [] <-> s = [].
Proof.
  split; [|by intros ->]. destruct s as [|w ws]; [done|]. simpl.
  destruct (specWalk_head (topLeftY w) [w] ws) as (gs & -> & Hne). done.
Qed.

(** On a list sorted by y: every line opens with the word that gives its
    anchor, its words lie between the anchor and the anchor plus 20, and
    the anchors of later lines are more than 20 below. *)
Lemma specLines_bands n s :
  (length s < n)%nat -> StronglySorted (le_key topLeftY) s ->
  Forall (fun g =>
            (exists w rest, snd g = w :: rest /\ fst g = topLeftY w /\ w ∈ s)
            /\ Forall (fun v => fst g <= topLeftY v <= fst g + 20) (snd g))
         (specLines s)
  /\ StronglySorted (fun g g' => fst g + 20 < fst g') (specLines s).
Proof.
  revert s. induction n as [|n IH]; intros s Hn Hs; [lia|].
  destruct s as [|w ws]; [split; constructor|].
  pose proof Hs as [Hle Hws]%StronglySorted_cons.
  assert (Forall (fun v => topLeftY w <= topLeftY v) ws) as Hle' by done.
  simpl. rewrite specWalk_sorted by done.
  set (a := topLeftY w) in *.
  destruct (IH (filter (fun v => ~ topLeftY v <= a + 20) ws)) as [IH1 IH2].
  { pose proof (length_filter (fun v => ~ topLeftY v <= a + 20) ws).
    simpl in Hn. lia. }
  { by apply StronglySorted_filter. }
  split.
  - constructor; simpl.
    + split; [exists w, (filter (fun v => topLeftY v <= a + 20) ws);
              repeat split; left|].
      constructor; [lia|].
      apply Forall_forall. intros v [Hv Hin]%list_elem_of_filter.
      rewrite Forall_forall in Hle'. specialize (Hle' v Hin). lia.
    + eapply Forall_impl; [exact IH1|].
      intros g [(v & rest & Hg & Ha & Hin) Hband]. split; [|done].
      exists v, rest. repeat split; try done.
      apply list_elem_of_filter in Hin as [_ Hin]. by right.
  - constructor; [done|]. simpl.
    eapply Forall_impl; [exact IH1|].
    intros g [(v & rest & Hg & Ha & Hin) _].
    apply list_elem_of_filter in Hin as [Hv _]. lia.
Qed.

Lemma fold_boxJoin_minY es b :
  Forall (fun e => Box.minY b <= Box.minY e) es ->
  Box.minY (fold_left boxJoin es b) = Box.minY b.
Proof.
  revert b. induction es as [|e es IH]; intros b Hes; simpl; [done|].
  apply Forall_cons in Hes as [He Hes].
  rewrite IH; simpl; [lia|].
  eapply Forall_impl; [exact Hes|]. simpl; intros; lia.
Qed.

Lemma StronglySorted_map {A B} (f : A -> B) (R : B -> B -> Prop) l :
  StronglySorted (fun a a' => R (f a) (f a')) l -> StronglySorted R (map f l).
Proof.
  induction 1 as [|a l Hl IH Ha]; simpl; constructor; [done|].
  by rewrite Forall_map.
Qed.

Lemma Forall2_map_anchored (P : Z -> list Detail.t -> Prop) ls :
  Forall (fun g => P (fst g) (snd g)) (map anchored ls) ->
  Forall (fun L => P (Acc.averageY L) (Acc.words L)) ls.
Proof. by rewrite Forall_map. Qed.

Lemma groupLoop_bands s :
  StronglySorted (le_key topLeftY) s ->
  Forall (fun L =>
            Box.minY (Acc.boundingBox L) = Acc.averageY L
            /\ Forall (fun v => Acc.averageY L <= topLeftY v
                                <= Acc.averageY L + 20) (Acc.words L))
         (lines (groupLoop s))
  /\ StronglySorted (fun L L' => Acc.averageY L + 20 < Acc.averageY L')
                    (lines (groupLoop s)).
Proof.
  intros Hs.
  destruct (specLines_bands (S (length s)) s (Nat.lt_succ_diag_r _) Hs)
    as [H1 H2].
  rewrite <- groupLoop_spec in H1, H2. split.
  - rewrite Forall_map in H1.
    pose proof (groupLoop_box s) as Hbox.
    rewrite Forall_forall in H1, Hbox |- *. intros L HL.
    destruct (H1 L HL) as [(w & rest & Hw & Ha & _) Hband]. simpl in *.
    split; [|done].
    specialize (Hbox L HL). rewrite Hw in Hbox. simpl in Hbox.
    injection Hbox as ->.
    rewrite fold_boxJoin_minY; [by rewrite Ha|].
    rewrite Hw in Hband. apply Forall_cons in Hband as [_ Hband].
    rewrite Forall_map. eapply Forall_impl; [exact Hband|].
    simpl. intros v Hv. lia.
  - clear H1. revert H2. generalize (lines (groupLoop s)). intros ls.
    induction ls as [|L ls IH]; simpl; intros H2; [constructor|].
    apply StronglySorted_cons in H2 as [HL H2].
    constructor; [by apply IH|]. by rewrite Forall_map in HL.
Qed.

(** X2.  The lines of the output are vertical bands, from top to bottom:
    the y of every word of a line is between the line's [minY] and that
    plus 20, and the [minY] of a later line is more than 20 below the
    [minY] of an earlier one. *)
Theorem lines_are_bands (textDetails : option (list Detail.t)) :
  let out := organizeTextByLines textDetails in
  Forall (fun L =>
            Forall (fun w =>
                      Box.minY (OutLine.boundingBox L)
                      <= Pos.y (OutWord.position w)
                      <= Box.minY (OutLine.boundingBox L) + 20)
                   (OutLine.words L))
         out
  /\ StronglySorted
       (fun L L' => Box.minY (OutLine.boundingBox L) + 20
                    < Box.minY (OutLine.boundingBox L'))
       out.
Proof.
  destruct textDetails as [l|]; [|split; constructor].
  cbv zeta. rewrite organize_lines.
  destruct (groupLoop_bands (sort_by topLeftY l) (sort_by_sorted _ _))
    as [H1 H2].
  split.
  - rewrite Forall_map. eapply Forall_impl; [exact H1|].
    intros L [Hm Hw]. simpl. rewrite Forall_map, Hm.
    by rewrite sort_by_perm.
  - apply StronglySorted_map. simpl.
    rewrite Forall_forall in H1.
    revert H1 H2. generalize (lines (groupLoop (sort_by topLeftY l))).
    intros ls H1 H2. induction H2 as [|L ls Hls IH HL]; constructor.
    + apply IH. intros L' HL'. apply H1. by right.
    + rewrite Forall_forall in HL |- *. intros L' HL'.
      destruct (H1 L) as [-> _]; [left|].
      destruct (H1 L') as [-> _]; [by right|]. by apply HL.
Qed.

(** The box of a line. *)

Lemma fold_boxJoin_min_le es b :
  let r := fold_left boxJoin es b in
  (Box.minX r <= Box.minX b /\ Forall (fun e => Box.minX r <= Box.minX e) es)
  /\ (Box.minY r <= Box.minY b /\ Forall (fun e => Box.minY r <= Box.minY e) es).
Proof.
  revert b. induction es as [|e es IH]; intros b; simpl.
  - repeat split; try lia; constructor.
  - destruct (IH (boxJoin b e)) as [[Hx Hxs] [Hy Hys]]. simpl in *.
    repeat split; try lia; constructor; try done; lia.
Qed.

Lemma fold_boxJoin_minX_attained es b :
  let r := fold_left boxJoin es b in
  Box.minX r = Box.minX b \/ Exists (fun e => Box.minX r = Box.minX e) es.
Proof.
  revert b. induction es as [|e es IH]; intros b; simpl; [by left|].
  destruct (IH (boxJoin b e)) as [Hx|Hx]; simpl in *.
  - destruct (Z.min_spec (Box.minX b) (Box.minX e)) as [[_ Hm]|[_ Hm]];
      rewrite Hm in Hx; [by left | right; by left].
  - right. by right.
Qed.

Lemma fold_boxJoin_max_ge es b :
  let r := fold_left boxJoin es b in
  Box.maxX b <= Box.maxX r /\ Box.maxY b <= Box.maxY r.
Proof.
  revert b. induction es as [|e es IH]; intros b; simpl; [lia|].
  destruct (IH (boxJoin b e)) as [Hx Hy]. simpl in *. lia.
Qed.

Lemma lineBox_facts w rest b :
  lineBox (w :: rest) = Some b ->
  Box.minX b <= Box.maxX b
  /\ Box.minY b <= Box.maxY b
  /\ Forall (fun v => Box.minX b <= topLeftX v) (w :: rest)
  /\ Exists (fun v => Box.minX b = topLeftX v) (w :: rest).
Proof.
  simpl. intros [= <-].
  destruct (fold_boxJoin_min_le (map extent rest) (corner w))
    as [[Hx Hxs] [Hy Hys]].
  destruct (fold_boxJoin_max_ge (map extent rest) (corner w)) as [Mx My].
  pose proof (fold_boxJoin_minX_attained (map extent rest) (corner w)) as Hat.
  simpl in *. repeat split; try lia.
  - constructor; [done|]. by rewrite Forall_map in Hxs.
  - destruct Hat as [Hat|Hat]; [by left|].
    right. clear -Hat.
    generalize dependent (Box.minX (fold_left boxJoin (map extent rest) (corner w))).
    intros m Hat. induction rest as [|v rest IH]; simpl in *.
    + by apply Exists_nil in Hat.
    + apply Exists_cons in Hat as [Hat|Hat]; [by left | right; by apply IH].
Qed.

(** X3.  The box of an output line is never inverted, and its [minX] is
    the x of the first word of the line, the smallest of the line. *)
Theorem box_starts_at_first_word (textDetails : option (list Detail.t)) :
  Forall (fun L =>
            let b := OutLine.boundingBox L in
            Box.minX b <= Box.maxX b
            /\ Box.minY b <= Box.maxY b
            /\ (head (OutLine.words L)
                ≫= (fun w => Some (Pos.x (OutWord.position w))))
               = Some (Box.minX b)
            /\ Forall (fun w => Box.minX b <= Pos.x (OutWord.position w))
                      (OutLine.words L))
         (organizeTextByLines textDetails).
Proof.
  destruct textDetails as [l|]; [|constructor].
  rewrite organize_lines, Forall_map.
  pose proof (groupLoop_box (sort_by topLeftY l)) as Hbox.
  eapply Forall_impl; [exact Hbox|]. clear Hbox.
  intros L HL. cbv zeta. simpl. cbv beta in HL.
  destruct (Acc.words L) as [|w rest] eqn:Hw; [done|].
  symmetry in HL.
  destruct (lineBox_facts w rest _ HL) as (Hx & Hy & Hle & Hat).
  rewrite <- Hw in *. clear Hw HL.
  split; [done|]. split; [done|].
  pose proof (sort_by_sorted topLeftX (Acc.words L)) as Hs.
  pose proof (sort_by_perm topLeftX (Acc.words L)) as Hp.
  rewrite <- Hp in Hle, Hat.
  destruct (sort_by topLeftX (Acc.words L)) as [|h t].
  { by apply Exists_nil in Hat. }
  split.
  - simpl. f_equal.
    apply StronglySorted_cons in Hs as [Hh _].
    apply Forall_cons in Hle as [Hhle _].
    apply Exists_cons in Hat as [Hat|Hat]; [done|].
    apply Exists_exists in Hat as (v & Hv & Heq).
    rewrite Forall_forall in Hh. specialize (Hh v Hv).
    unfold le_key in Hh. lia.
  - by rewrite Forall_map.
Qed.

(** X4.  A non-empty input gives exactly one line if and only if no word
    is more than 20 below another. *)
Theorem one_line_iff_close (w : Detail.t) (l : list Detail.t) :
  length (organizeTextByLines (Some (w :: l))) = 1%nat
  <-> forall a b, a ∈ w :: l -> b ∈ w :: l -> topLeftY b - topLeftY a <= 20.
Proof.
  rewrite organize_lines, length_map.
  rewrite <- (length_map anchored), groupLoop_spec.
  pose proof (sort_by_sorted topLeftY (w :: l)) as Hs.
  pose proof (sort_by_perm topLeftY (w :: l)) as Hp.
  destruct (sort_by topLeftY (w :: l)) as [|w0 ws0].
  { by apply Permutation_nil_cons in Hp. }
  pose proof Hs as [Hle _]%StronglySorted_cons.
  assert (Forall (fun v => topLeftY w0 <= topLeftY v) ws0) as Hle' by done.
  simpl. rewrite specWalk_sorted by (by apply StronglySorted_cons in Hs as [_ ?]).
  simpl. split.
  - intros Hlen a b Ha Hb.
    assert (specLines (filter (fun v => ~ topLeftY v <= topLeftY w0 + 20) ws0) = [])
      as Hnil by (by destruct (specLines _)).
    apply specLines_nil in Hnil.
    assert (forall v, v ∈ w0 :: ws0 ->
                      topLeftY w0 <= topLeftY v <= topLeftY w0 + 20) as Hband.
    { intros v [->|Hv]%elem_of_cons; [lia|].
      rewrite Forall_forall in Hle'. specialize (Hle' v Hv).
      destruct (decide (topLeftY v <= topLeftY w0 + 20)) as [?|Hn]; [lia|].
      assert (v ∈ filter (fun v => ~ topLeftY v <= topLeftY w0 + 20) ws0) as Hin
        by (by apply list_elem_of_filter).
      rewrite Hnil in Hin. by apply elem_of_nil in Hin. }
    rewrite <- Hp in Ha, Hb.
    pose proof (Hband a Ha). pose proof (Hband b Hb). lia.
  - intros Hclose.
    rewrite (filter_none (fun v => ~ topLeftY v <= topLeftY w0 + 20)); [done|].
    apply Forall_forall. intros v Hv Hn. apply Hn.
    assert (topLeftY v - topLeftY w0 <= 20); [|lia].
    apply Hclose; rewrite <- Hp; [left | by right].
Qed.

Lemma one_line_iff_close_witness :
  length (organizeTextByLines
            (Some [word "a" [(0, 20)]; word "b" [(30, 0)]; word "c" [(9, 7)]]))
  = 1%nat.
Proof.
  apply (proj2 (one_line_iff_close _ _)).
  intros a b Ha Hb.
  repeat (apply elem_of_cons in Ha as [->|Ha]);
    repeat (apply elem_of_cons in Hb as [->|Hb]);
    try (by apply elem_of_nil in Ha); try (by apply elem_of_nil in Hb);
    vm_compute; discriminate.
Defined.

Lemma NoDup_map_inj {A B} (f : A -> B) l a b :
  NoDup (map f l) -> a ∈ l -> b ∈ l -> f a = f b -> a = b.
Proof.
  induction l as [|c l IH]; simpl; intros Hnd Ha Hb Hf.
  - by apply elem_of_nil in Ha.
  - apply NoDup_cons in Hnd as [Hc Hnd].
    apply elem_of_cons in Ha as [->|Ha]; apply elem_of_cons in Hb as [->|Hb];
      try done.
    + exfalso. apply Hc. rewrite Hf.
      by apply list_elem_of_In, in_map, list_elem_of_In.
    + exfalso. apply Hc. rewrite <- Hf.
      by apply list_elem_of_In, in_map, list_elem_of_In.
    + by apply IH.
Qed.

(** X5.  When no two words have the same top-left y, the whole output,
    bounding boxes included, is the same for every order of the input. *)
Theorem distinct_y_order_free (l1 l2 : list Detail.t) :
  l1 ≡ₚ l2 -> NoDup (map topLeftY l1) ->
  organizeTextByLines (Some l1) = organizeTextByLines (Some l2).
Proof.
  intros Hp Hnd. rewrite !organize_lines.
  replace (sort_by topLeftY l2) with (sort_by topLeftY l1); [done|].
  apply (StronglySorted_unique_strong (le_key topLeftY)).
  - intros a b Ha Hb Hab Hba. rewrite sort_by_perm in Ha.
    rewrite sort_by_perm, <- Hp in Hb.
    apply (NoDup_map_inj topLeftY l1); try done.
    unfold le_key in *. lia.
  - apply sort_by_sorted.
  - apply sort_by_sorted.
  - by rewrite !sort_by_perm.
Qed.

Lemma distinct_y_order_free_witness :
  organizeTextByLines
    (Some [word "A" [(0, 0); (10, 0); (10, 10)]; word "B" [(20, 5); (30, 5); (30, 15)]])
  = organizeTextByLines
      (Some [word "B" [(20, 5); (30, 5); (30, 15)]; word "A" [(0, 0); (10, 0); (10, 10)]]).
Proof.
  apply distinct_y_order_free.
  - apply Permutation_swap.
  - vm_compute. repeat constructor; rewrite ?list_elem_of_In; simpl; intuition lia.
Defined.

(** * Properties of the entry points of the service *)

Lemma mock_test env :
  negb (isSet (Env.GOOGLE_CLOUD_API_KEY env))
  && negb (isSet (Env.GOOGLE_APPLICATION_CREDENTIALS env))
  = negb (clientConfigured env).
Proof.
  unfold clientConfigured.
  by destruct (isSet (Env.GOOGLE_CLOUD_API_KEY env)),
              (isSet (Env.GOOGLE_APPLICATION_CREDENTIALS env)).
Qed.

Lemma detectText_cases trim splitCount now env outcome :
  detectText trim splitCount now env outcome
  = if clientConfigured env
    then match outcome with
         | Rejected e => errorResult e
         | Resolved None => noTextResult
         | Resolved (Some []) => noTextResult
         | Resolved (Some (d :: ds)) =>
             successResult trim splitCount now (d :: ds)
         end
    else mockResult now.
Proof.
  unfold detectText. rewrite mock_test.
  destruct outcome as [e|[[|d ds]|]]; by destruct (clientConfigured env).
Qed.




Lemma detectText_success_iff trim splitCount now env outcome :
  Result.success (detectText trim splitCount now env outcome) = true
  <-> clientConfigured env = false
      \/ exists d ds, outcome = Resolved (Some (d :: ds)).
Proof.
  rewrite detectText_cases.
  destruct (clientConfigured env); destruct outcome as [e|[[|d ds]|]]; simpl;
    (split;
     [intros Hs; first [discriminate Hs | by left | right; by eauto]
     |intros [Hc|(d' & ds' & Hd)]; by simplify_eq]).
Qed.

Lemma detectText_error_iff trim splitCount now env outcome e :
  Result.error (detectText trim splitCount now env outcome) = Some e
  <-> clientConfigured env = true /\ outcome = Rejected e.
Proof.
  rewrite detectText_cases.
  destruct (clientConfigured env); destruct outcome as [e'|[[|d ds]|]]; simpl;
    (split; [intros He; by simplify_eq | intros [Hc He]; by simplify_eq]).
Qed.

(** X7.  [detectText] succeeds exactly in mock mode or when the provider
    returns at least one annotation, and its result has an [error] field
    exactly when, outside mock mode, the provider call was rejected; the
    field is then the provider's error. *)
Theorem detectText_outcomes trim splitCount now env outcome :
  let r := detectText trim splitCount now env outcome in
  (Result.success r = true
   <-> clientConfigured env = false
       \/ exists d ds, outcome = Resolved (Some (d :: ds)))
  /\ (forall e, Result.error r = Some e
                <-> clientConfigured env = true /\ outcome = Rejected e).
Proof.
  split; [apply detectText_success_iff | intros e; apply detectText_error_iff].
Qed.

Lemma detectText_outcomes_witness :
  clientConfigured
    {| Env.GOOGLE_CLOUD_API_KEY := Some "key"%string;
       Env.GOOGLE_APPLICATION_CREDENTIALS := None |} = true
  /\ Rejected (Failure.mk (Some 7) "quota") = Rejected (Failure.mk (Some 7) "quota").
Proof.
  apply (proj1 (proj2 (detectText_outcomes (fun s => s) (fun _ => 1%nat) ""
                         {| Env.GOOGLE_CLOUD_API_KEY := Some "key"%string;
                            Env.GOOGLE_APPLICATION_CREDENTIALS := None |}
                         (Rejected (Failure.mk (Some 7) "quota")))
                  (Failure.mk (Some 7) "quota"))).
  reflexivity.
Defined.

Lemma Forall_concat_words (P : OutWord.t -> Prop) (ls : list OutLine.t) :
  Forall P (concat (map OutLine.words ls)) ->
  Forall (fun L => Forall P (OutLine.words L)) ls.
Proof.
  induction ls as [|L ls IH]; simpl; intros H; [constructor|].
  apply Forall_app in H as [H1 H2]. constructor; [done | by apply IH].
Qed.

(** X8.  Outside mock mode, for a provider answer of one annotation or
    more: the text is the trimmed description of the first annotation, the
    details are one per further annotation, [totalWords] counts them,
    [totalLines] counts the lines, the word counts of the lines add up to
    [totalWords], every word of every line carries a confidence, and there
    is no line exactly when the first annotation is the only one. *)
Theorem success_totals trim splitCount now env d ds :
  clientConfigured env = true ->
  let r := detectText trim splitCount now env (Resolved (Some (d :: ds))) in
  exists ls meta,
    Result.lines r = Some ls /\ Result.metadata r = Some meta
    /\ Result.success r = true
    /\ Result.text r = trim (Annotation.description d)
    /\ length (Result.details r) = length ds
    /\ Meta.totalWords meta = length ds
    /\ Meta.totalLines meta = Some (length ls)
    /\ sum_list_with OutLine.wordCount ls = Meta.totalWords meta
    /\ Forall (fun L =>
                 Forall (fun w => exists q, OutWord.confidence w = Some q)
                        (OutLine.words L)) ls
    /\ (ls = [] <-> ds = []).
Proof.
  intros Hc. cbv zeta. rewrite detectText_cases, Hc.
  unfold successResult. change (drop 1 (d :: ds)) with ds.
  eexists _, _. split; [reflexivity|]. split; [reflexivity|].
  cbn [Result.success Result.text Result.details Meta.totalWords Meta.totalLines].
  pose proof (sum_wordCount (map toDetail ds)) as word_sum.
  rewrite length_map in word_sum. rewrite !length_map.
  repeat split; try done.
  - apply Forall_concat_words. rewrite organize_words_perm.
    rewrite !Forall_map. apply Forall_forall. intros a _. by eexists.
  - intros Hnil. rewrite Hnil in word_sum. simpl in word_sum.
    by destruct ds.
  - by intros ->.
Qed.

Lemma success_totals_witness :
  let env := {| Env.GOOGLE_CLOUD_API_KEY := Some "key"%string;
                Env.GOOGLE_APPLICATION_CREDENTIALS := None |} in
  let d := Annotation.mk "B A" None None in
  let ds := [Annotation.mk "A" None (Some (Poly.mk (Some [Vertex.mk (Some 50) (Some 10)])));
             Annotation.mk "B" (Some (1 # 2)%Q) None] in
  let r := detectText (fun s => s) (fun _ => 2%nat) "" env
             (Resolved (Some (d :: ds))) in
  exists ls meta,
    Result.lines r = Some ls /\ Result.metadata r = Some meta
    /\ Result.success r = true
    /\ Result.text r = Annotation.description d
    /\ length (Result.details r) = length ds
    /\ Meta.totalWords meta = length ds
    /\ Meta.totalLines meta = Some (length ls)
    /\ sum_list_with OutLine.wordCount ls = Meta.totalWords meta
    /\ Forall (fun L =>
                 Forall (fun w => exists q, OutWord.confidence w = Some q)
                        (OutLine.words L)) ls
    /\ (ls = [] <-> ds = []).
Proof.
  apply (success_totals (fun s => s) (fun _ => 2%nat) "").
  reflexivity.
Defined.

(** The data-URL prefix. *)

Lemma stripPrefix_app p s : stripPrefix p (p ++ s) = Some s.
Proof.
  induction p as [|a p IH]; simpl; [by destruct s|].
  by rewrite Ascii.eqb_refl.
Qed.

Lemma stripPrefix_Some p s r : stripPrefix p s = Some r -> s = (p ++ r)%string.
Proof.
  revert s. induction p as [|a p IH]; intros s; simpl.
  - destruct s; by intros [= <-].
  - destruct s as [|b s]; [done|].
    destruct (Ascii.eqb_spec a b) as [<-|]; [|done].
    intros H. by rewrite (IH s H).
Qed.

Lemma spanLower_spec s ty rest :
  spanLower s = (ty, rest) -> s = (ty ++ rest)%string /\ allLower ty = true.
Proof.
  revert ty rest. induction s as [|c s IH]; intros ty rest; simpl.
  - by intros [= <- <-].
  - destruct (isLower c) eqn:Hc; [|by intros [= <- <-]].
    destruct (spanLower s) as [ty' rest']. intros [= <- <-].
    destruct (IH _ _ eq_refl) as [-> Hl]. simpl. by rewrite Hc, Hl.
Qed.

Lemma spanLower_app ty rest :
  allLower ty = true ->
  match rest with String c _ => isLower c = false | EmptyString => True end ->
  spanLower (ty ++ rest) = (ty, rest).
Proof.
  intros Hl Hr. induction ty as [|c ty IH]; simpl in *.
  - destruct rest as [|c r]; [done|]. simpl. by rewrite Hr.
  - apply andb_true_iff in Hl as [Hc Hl]. by rewrite Hc, IH.
Qed.

Lemma stripDataUrl_complete s payload :
  dataUrlOf s payload -> stripDataUrl s = payload.
Proof.
  intros (ty & Hne & Hl & ->). unfold stripDataUrl.
  rewrite stripPrefix_app.
  rewrite (spanLower_app ty (";base64," ++ payload)) by done.
  rewrite stripPrefix_app. by destruct ty.
Qed.

Lemma stripDataUrl_sound s :
  stripDataUrl s = s \/ dataUrlOf s (stripDataUrl s).
Proof.
  unfold stripDataUrl.
  destruct (stripPrefix "data:image/" s) as [r|] eqn:Hp; [|by left].
  destruct (spanLower r) as [ty rest] eqn:Hs.
  destruct ty as [|c ty]; [by left|].
  destruct (stripPrefix ";base64," rest) as [payload|] eqn:Hb; [|by left].
  right. exists (String c ty).
  apply stripPrefix_Some in Hp, Hb.
  apply spanLower_spec in Hs as [Hr Hl].
  split; [done|]. split; [done|]. by rewrite Hp, Hr, Hb.
Qed.

(** X9.  Removing the data-URL prefix: a string made of [data:image/], one
    or more lower-case letters, [;base64,] and a payload is reduced to that
    payload, whatever the payload is; every other string is left as it
    is. *)
Theorem stripDataUrl_spec (s : string) :
  (forall payload, dataUrlOf s payload -> stripDataUrl s = payload)
  /\ ((forall payload, ~ dataUrlOf s payload) -> stripDataUrl s = s)
  /\ (stripDataUrl s = s \/ dataUrlOf s (stripDataUrl s)).
Proof.
  split; [apply stripDataUrl_complete|].
  split; [|apply stripDataUrl_sound].
  intros Hno. destruct (stripDataUrl_sound s) as [H|H]; [done|].
  by apply Hno in H.
Qed.

Lemma stripDataUrl_spec_witness :
  stripDataUrl "data:image/png;base64,data:image/x;base64,QUJD"
  = "data:image/x;base64,QUJD"%string
  /\ stripDataUrl "data:image/svg+xml;base64,QUJD"
     = "data:image/svg+xml;base64,QUJD"%string.
Proof.
  split.
  - apply (proj1 (stripDataUrl_spec _)). exists "png"%string. by repeat split.
  - apply (proj1 (proj2 (stripDataUrl_spec _))).
    intros payload (ty & Hne & Hl & Heq).
    injection Heq as Heq.
    destruct ty as [|c1 [|c2 [|c3 [|c4 ty]]]]; simpl in *; try discriminate;
      injection Heq as ?; subst; try discriminate;
      repeat (match goal with H : (_ ++ _)%string = _ |- _ => simpl in H; injection H as ?; subst; try discriminate end);
      simpl in Hl; try discriminate.
Defined.

(** Downloads. *)

Lemma download_inr o bytes :
  download o = inr bytes
  <-> exists status, o = FetchResolved true status (BodyResolved bytes).
Proof.
  split.
  - destruct o as [e|[|] status [e|b]]; simpl; try done.
    intros [= ->]. by eexists.
  - by intros (status & ->).
Qed.

(** X10.  [detectTextFromUrl] consults the provider only after a download
    that succeeded: in mock mode it succeeds exactly when the response is
    [ok] and its body can be read; its result has an [error] field exactly
    when the download succeeded and the provider call was rejected; and a
    response that is not [ok] gives the failure naming its status, whatever
    the environment and the provider. *)
Theorem url_results trim splitCount now provider fetch env imageUrl :
  let r := detectTextFromUrl trim splitCount now provider fetch env imageUrl in
  (clientConfigured env = false ->
   (Result.success r = true
    <-> exists status bytes,
          fetch imageUrl = FetchResolved true status (BodyResolved bytes)))
  /\ (forall e,
        Result.error r = Some e
        <-> exists status bytes,
              fetch imageUrl = FetchResolved true status (BodyResolved bytes)
              /\ clientConfigured env = true
              /\ provider (ImageBuffer bytes) = Rejected e)
  /\ (forall status body,
        fetch imageUrl = FetchResolved false status body ->
        r = downloadError ("Failed to fetch image: " ++ pretty status)).
Proof.
  cbv zeta. unfold detectTextFromUrl, detectTextOf. split; [|split].
  - intros Hc. destruct (download (fetch imageUrl)) as [m|bytes] eqn:Hd.
    + split; [done|]. intros (status & bytes & Hf).
      rewrite Hf in Hd. done.
    + apply download_inr in Hd as (status & Hf).
      rewrite detectText_cases, Hc. split; [by eauto | done].
  - intros e. destruct (download (fetch imageUrl)) as [m|bytes] eqn:Hd.
    + split; [done|]. intros (status & bytes & Hf & _).
      rewrite Hf in Hd. done.
    + apply download_inr in Hd as (status & Hf).
      rewrite detectText_error_iff. split.
      * intros [Hc Hp]. by eauto.
      * intros (status' & bytes' & Hf' & Hc & Hp).
        rewrite Hf in Hf'. by simplify_eq.
  - intros status body Hf. by rewrite Hf.
Qed.

Lemma url_results_witness :
  detectTextFromUrl (fun s => s) (fun _ => 1%nat) "" (fun _ => Resolved None)
    (fun _ => FetchResolved false 404 (BodyResolved []))
    {| Env.GOOGLE_CLOUD_API_KEY := None;
       Env.GOOGLE_APPLICATION_CREDENTIALS := None |}
    "https://example.com/image.jpg"
  = downloadError "Failed to fetch image: 404".
Proof.
  apply (proj2 (proj2 (url_results (fun s => s) (fun _ => 1%nat) ""
                         (fun _ => Resolved None)
                         (fun _ => FetchResolved false 404 (BodyResolved []))
                         _ _)) 404%nat (BodyResolved [])).
  reflexivity.
Defined.

(** Documents. *)

(** X11.  Without credentials [detectText] answers with the mock success,
    but [detectDocumentText] has no mock mode: whatever the provider would
    do, it fails with the error thrown by the call on the missing client,
    an empty text and no pages. *)
Theorem document_needs_client {B : Type} trim splitCount now undefinedMessage
  env outcome (docOutcome : documentOutcome B) :
  clientConfigured env = false ->
  Result.success (detectText trim splitCount now env outcome) = true
  /\ detectDocumentText trim now undefinedMessage env docOutcome
     = documentError
         {| Failure.code := None; Failure.message := undefinedMessage |}
  /\ DocResult.success
       (detectDocumentText trim now undefinedMessage env docOutcome) = false.
Proof.
  intros Hc. rewrite detectText_cases. unfold detectDocumentText.
  by rewrite Hc.
Qed.

Lemma document_needs_client_witness :
  let env := {| Env.GOOGLE_CLOUD_API_KEY := Some ""%string;
                Env.GOOGLE_APPLICATION_CREDENTIALS := None |} in
  let doc : documentOutcome unit :=
    DocResolved (Some (FullText.mk "text" [Page.mk 10 10 [tt] None])) in
  Result.success (detectText (fun s => s) (fun _ => 1%nat) "" env (Resolved None))
  = true
  /\ detectDocumentText (fun s => s) "" "client is undefined" env doc
     = documentError
         {| Failure.code := None; Failure.message := "client is undefined" |}
  /\ DocResult.success
       (detectDocumentText (fun s => s) "" "client is undefined" env doc) = false.
Proof.
  apply (document_needs_client (fun s => s) (fun _ => 1%nat) "").
  reflexivity.
Defined.

(** X12.  [detectDocumentText] succeeds exactly when a client is configured
    and the provider returns a full-text annotation; the result then has
    one page entry per page of the annotation, in order, each with the
    number of blocks of its page, and [totalPages] is their number.  A
    result that is not a success has an empty text, no pages and no
    metadata, and it has no [error] field only when the provider answered
    without an annotation. *)
Theorem document_outcomes {B : Type} trim now undefinedMessage env
  (outcome : documentOutcome B) :
  let r := detectDocumentText trim now undefinedMessage env outcome in
  (DocResult.success r = true
   <-> clientConfigured env = true /\ exists fta, outcome = DocResolved (Some fta))
  /\ (forall fta,
        clientConfigured env = true -> outcome = DocResolved (Some fta) ->
        map PageInfo.blocks (DocResult.pages r)
        = map (fun p => length (Page.blocks p)) (FullText.pages fta)
        /\ DocResult.metadata r
           = Some {| DocMeta.totalPages := length (FullText.pages fta);
                     DocMeta.timestamp := now |})
  /\ (DocResult.success r = false ->
      DocResult.text r = ""%string /\ DocResult.pages r = []
      /\ DocResult.metadata r = None
      /\ (DocResult.error r = None
          <-> clientConfigured env = true /\ outcome = DocResolved None)).
Proof.
  cbv zeta. unfold detectDocumentText.
  destruct (clientConfigured env); destruct outcome as [e|[fta|]]; simpl;
    (split; [split; [intros Hs; by eauto | intros [Hc (fta' & Hf)]; by simplify_eq]|]);
    (split;
     [intros fta' Hc Hf; simplify_eq; rewrite ?map_map, ?length_map; done
     |intros Hs; simplify_eq; repeat split; try done; intros [? ?]; by simplify_eq]).
Qed.

Lemma document_outcomes_witness :
  let env := {| Env.GOOGLE_CLOUD_API_KEY := Some "key"%string;
                Env.GOOGLE_APPLICATION_CREDENTIALS := None |} in
  let fta : FullText.t unit :=
    FullText.mk "text" [Page.mk 10 20 [tt; tt] None; Page.mk 10 20 [] (Some (1 # 2)%Q)] in
  let r := detectDocumentText (fun s => s) "" "" env (DocResolved (Some fta)) in
  map PageInfo.blocks (DocResult.pages r) = [2%nat; 0%nat]
  /\ DocResult.metadata r
     = Some {| DocMeta.totalPages := 2; DocMeta.timestamp := "" |}.
Proof.
  apply (proj1 (proj2 (document_outcomes (fun s => s) "" "" _ _))
           (FullText.mk "text" [Page.mk 10 20 [tt; tt] None; Page.mk 10 20 [] (Some (1 # 2)%Q)]));
    reflexivity.
Defined.
